(** * Invoice scanner (app.py): extraction-and-persistence pipeline

    A shallow embedding of the helper functions of [app.py]
    ([save_uploaded_images], [extract_invoice_data_with_gemini],
    [save_invoice_to_db], [get_all_invoices], [get_invoice_detail]) and of the
    library operations they call, followed by the properties of the
    pipeline.

    Conventions.
    - A Python [str] is a list of Unicode code points ([list N]).
    - A Python exception is a value of [exn]; a call that may raise returns
      an [outcome].
    - Whatever the code cannot decide by itself (the clock, I/O errors, the
      database engine refusing a statement, the remote model) is an oracle
      the definitions are parameterised by. *)

From Stdlib Require Import NArith ZArith DecimalN Strings.String Strings.Ascii.
From stdpp Require Import base list gmap sorting.

Set Default Proof Using "Type".

(** ** Python strings *)

Definition str := list N.

(** Code points of an ASCII literal. *)
Definition cp (s : string) : str := N_of_ascii <$> list_ascii_of_string s.

(** The same, with every apostrophe read as a double quote (JSON texts are
    easier to read that way). *)
Definition dq (s : string) : str :=
  (λ c, if (c =? 39)%N then 34%N else c) <$> cp s.

(** [str.isspace] on one code point, as CPython's [Py_UNICODE_ISSPACE]. *)
Definition isspace (c : N) : bool :=
  ((9 <=? c) && (c <=? 13) || (28 <=? c) && (c <=? 32)
   || (c =? 133) || (c =? 160) || (c =? 5760)
   || (8192 <=? c) && (c <=? 8202)
   || (c =? 8232) || (c =? 8233) || (c =? 8239) || (c =? 8287)
   || (c =? 12288))%N.

Fixpoint lstrip (s : str) : str :=
  match s with
  | c :: s' => if isspace c then lstrip s' else s
  | [] => []
  end.

Definition rstrip (s : str) : str := reverse (lstrip (reverse s)).

(** [s.strip()] *)
Definition strip (s : str) : str := rstrip (lstrip s).

(** [s.startswith(p)] and [s.endswith(p)] *)
Definition startswith (s p : str) : bool := bool_decide (p `prefix_of` s).
Definition endswith (s p : str) : bool := bool_decide (p `suffix_of` s).

(** [sep.join(l)] *)
Fixpoint join (sep : str) (l : list str) : str :=
  match l with
  | [] => []
  | [x] => x
  | x :: l' => x ++ sep ++ join sep l'
  end.

(** [s.split(sep)] for a one-character separator: [cur] is the piece being
    read. *)
Fixpoint split_from (sep : N) (cur : str) (s : str) : list str :=
  match s with
  | [] => [cur]
  | c :: s' =>
      if (c =? sep)%N then cur :: split_from sep [] s'
      else split_from sep (cur ++ [c]) s'
  end.

Definition split (sep : N) (s : str) : list str := split_from sep [] s.

(** ** Exceptions *)

Inductive exn :=
| JSONDecodeError
| ValueError
| AttributeError
| TypeError
| OSError
| DBAPIError
| DetachedInstanceError
| ImageError
| RemoteError
| RecursionError
| ObjectDeletedError.

Inductive outcome (A : Type) :=
| Returns (a : A)
| Raises (e : exn).
Arguments Returns {A} a.
Arguments Raises {A} e.

#[global] Instance outcome_ret : MRet outcome := λ A a, Returns a.
#[global] Instance outcome_bind : MBind outcome := λ A B k m,
  match m with
  | Returns a => k a
  | Raises e => Raises e
  end.

(** ** JSON values, as [json.loads] builds them

    Python [int] is exact, so an integer literal becomes its value.  A
    [float] is kept as the literal it was read from (binary floating point
    is not modelled); [NaN], [Infinity] and [-Infinity] are floats too.  A
    [dict] is its list of items in insertion order. *)

#[warnings="-register-all"]
Inductive json :=
| JNull
| JBool (b : bool)
| JInt (z : Z)
| JFloat (literal : str)
| JString (s : str)
| JArray (l : list json)
| JObject (d : list (str * json)).

Definition dict := list (str * json).

(** [d.get(k)], before the default is applied. *)
Fixpoint dict_get (k : str) (d : dict) : option json :=
  match d with
  | [] => None
  | (k', v) :: d' => if decide (k' = k) then Some v else dict_get k d'
  end.

(** [d[k] = v]: an existing key keeps its place, a new one goes last. *)
Fixpoint dict_set (k : str) (v : json) (d : dict) : dict :=
  match d with
  | [] => [(k, v)]
  | (k', v') :: d' =>
      if decide (k' = k) then (k', v) :: d' else (k', v') :: dict_set k v d'
  end.

(** ** The JSON decoder ([json.loads] with its defaults, the C scanner) *)

Definition ch (a : ascii) (c : N) : bool := (c =? N_of_ascii a)%N.
Definition is_quote (c : N) : bool := (c =? 34)%N.
Definition is_digit (c : N) : bool := (48 <=? c)%N && (c <=? 57)%N.

(** JSON whitespace: space, tab, line feed, carriage return. *)
Definition is_json_ws (c : N) : bool :=
  ch " " c || (c =? 9)%N || (c =? 10)%N || (c =? 13)%N.

Fixpoint skip_ws (s : str) : str :=
  match s with
  | c :: s' => if is_json_ws c then skip_ws s' else s
  | [] => []
  end.

Definition hex_digit (c : N) : option N :=
  if is_digit c then Some (c - 48)%N
  else if (97 <=? c)%N && (c <=? 102)%N then Some (c - 87)%N
  else if (65 <=? c)%N && (c <=? 70)%N then Some (c - 55)%N
  else None.

Definition hex4 (a b c d : N) : option N :=
  a ← hex_digit a; b ← hex_digit b; c ← hex_digit c; d ← hex_digit d;
  Some (((a * 16 + b) * 16 + c) * 16 + d)%N.

Definition is_high_surrogate (u : N) : bool := (55296 <=? u)%N && (u <=? 56319)%N.
Definition is_low_surrogate (u : N) : bool := (56320 <=? u)%N && (u <=? 57343)%N.
Definition join_surrogates (hi lo : N) : N :=
  (65536 + (hi - 55296) * 1024 + (lo - 56320))%N.

(** The character a one-letter escape stands for. *)
Definition unescape (c : N) : option N :=
  if is_quote c || ch "\" c || ch "/" c then Some c
  else if ch "b" c then Some 8%N
  else if ch "f" c then Some 12%N
  else if ch "n" c then Some 10%N
  else if ch "r" c then Some 13%N
  else if ch "t" c then Some 9%N
  else None.

Definition cons_char (c : N) (r : outcome (str * str)) : outcome (str * str) :=
  '(v, rest) ← r; Returns (c :: v, rest).

(** [scanstring], strict: [s] starts after the opening quote; the result is
    the decoded string and the text after the closing quote. *)
Fixpoint scanstring (s : str) : outcome (str * str) :=
  match s with
  | [] => Raises JSONDecodeError
  | c :: s1 =>
      if is_quote c then Returns ([], s1)
      else if (c <? 32)%N then Raises JSONDecodeError
      else if ch "\" c then
        match s1 with
        | [] => Raises JSONDecodeError
        | e :: s2 =>
            if ch "u" e then
              match s2 with
              | h1 :: h2 :: h3 :: h4 :: s3 =>
                  match hex4 h1 h2 h3 h4 with
                  | None => Raises JSONDecodeError
                  | Some u =>
                      match s3 with
                      | b :: e' :: k1 :: k2 :: k3 :: k4 :: s4 =>
                          if is_high_surrogate u && ch "\" b && ch "u" e' then
                            match hex4 k1 k2 k3 k4 with
                            | None => Raises JSONDecodeError
                            | Some u2 =>
                                if is_low_surrogate u2
                                then cons_char (join_surrogates u u2) (scanstring s4)
                                else cons_char u (scanstring s3)
                            end
                          else cons_char u (scanstring s3)
                      | _ => cons_char u (scanstring s3)
                      end
                  end
              | _ => Raises JSONDecodeError
              end
            else
              match unescape e with
              | Some c' => cons_char c' (scanstring s2)
              | None => Raises JSONDecodeError
              end
        end
      else cons_char c (scanstring s1)
  end.

(** The longest run of decimal digits at the head of [s], and what follows. *)
Fixpoint digits (s : str) : str * str :=
  match s with
  | c :: s' =>
      if is_digit c then let '(ds, r) := digits s' in (c :: ds, r) else ([], s)
  | [] => ([], [])
  end.

Definition int_of_digits (ds : str) : Z :=
  foldl (λ acc c, acc * 10 + Z.of_N (c - 48))%Z 0%Z ds.

(** [sys.int_max_str_digits] *)
Definition int_max_str_digits : nat := 4300.

(** The text after the fraction [.ddd] at the head of [s], if there is one. *)
Definition after_fraction (s : str) : option str :=
  match s with
  | p :: d :: s' =>
      if ch "." p && is_digit d then Some (digits s').2 else None
  | _ => None
  end.

(** The text after the exponent [e+ddd] at the head of [s], if there is one. *)
Definition after_exponent (s : str) : option str :=
  match s with
  | e :: s1 =>
      if ch "e" e || ch "E" e then
        let s2 := match s1 with
                  | sg :: s2 => if ch "-" sg || ch "+" sg then s2 else s1
                  | [] => s1
                  end in
        match digits s2 with
        | ([], _) => None
        | (_ :: _, r) => Some r
        end
      else None
  | [] => None
  end.

(** [_match_number]: an optional minus, an integer part without leading
    zero, an optional fraction, an optional exponent. *)
Definition match_number (s : str) : outcome (json * str) :=
  let '(neg, s1) := match s with
                    | c :: s' => if ch "-" c then (true, s') else (false, s)
                    | [] => (false, s)
                    end in
  match s1 with
  | [] => Raises JSONDecodeError
  | c :: s2 =>
      if is_digit c then
        let '(ip, r) := if ch "0" c then ([c], s2)
                        else let '(ds, r) := digits s2 in (c :: ds, r) in
        let fr := after_fraction r in
        let r1 := default r fr in
        let ex := after_exponent r1 in
        let r2 := default r1 ex in
        match fr, ex with
        | None, None =>
            if decide (int_max_str_digits < length ip) then Raises ValueError
            else Returns (JInt (if neg : bool then - int_of_digits ip
                                else int_of_digits ip)%Z, r2)
        | _, _ => Returns (JFloat (take (length s - length r2) s), r2)
        end
      else Raises JSONDecodeError
  end.

(** Result of scanning one value with a bounded number of steps. *)
Inductive scan :=
| Scanned (v : json) (rest : str)
| Fails (e : exn)
| Starved.

Definition scan_of (r : outcome (json * str)) : scan :=
  match r with
  | Returns (v, rest) => Scanned v rest
  | Raises e => Fails e
  end.

(** What the decoder depends on in the interpreter's stack.  [levels] is
    the number of recursion levels left when the scanner is called: an
    object or an array takes one level while it is read
    ([Py_EnterRecursiveCall]).  [errmsg_levels] is the number of levels it
    takes to build a [JSONDecodeError] inside the scanner, where
    [raise_errmsg] calls the Python class (three in CPython 3.11: the call
    of the class, its [__init__], and [ValueError.__init__] in it).  The
    errors that leave the scanner as [StopIteration] (an expected value is
    missing) or as the integer-size [ValueError] are built once the
    scanner has returned, and so is the error of data after the value. *)
Record recursion := { levels : nat; errmsg_levels : nat }.

Section Scanner.
Variable errmsg_levels : nat.

(** The exception [raise_errmsg] leaves, with [limit] levels left. *)
Definition errmsg (limit : nat) : exn :=
  if decide (errmsg_levels ≤ limit) then JSONDecodeError else RecursionError.

(** [scan_once]: one value at the head of [s], with [limit] levels left.
    With none left the scanner raises [RecursionError] at an opening
    bracket, before it reads any further. *)
Fixpoint scan_once (fuel limit : nat) (s : str) {struct fuel} : scan :=
  match fuel with
  | 0 => Starved
  | S fuel =>
      match s with
      | [] => Fails JSONDecodeError
      | c :: s' =>
          if is_quote c then
            match scanstring s' with
            | Returns (v, r) => Scanned (JString v) r
            | Raises _ => Fails (errmsg limit)
            end
          else if ch "{" c then
            match limit with
            | 0 => Fails RecursionError
            | S limit =>
                match skip_ws s' with
                | c1 :: s2 =>
                    if ch "}" c1 then Scanned (JObject []) s2
                    else parse_members fuel limit [] (c1 :: s2)
                | [] => Fails (errmsg limit)
                end
            end
          else if ch "[" c then
            match limit with
            | 0 => Fails RecursionError
            | S limit =>
                match skip_ws s' with
                | c1 :: s2 =>
                    if ch "]" c1 then Scanned (JArray []) s2
                    else parse_elements fuel limit [] (c1 :: s2)
                | [] => Fails JSONDecodeError
                end
            end
          else if startswith s (cp "null") then Scanned JNull (drop 4 s)
          else if startswith s (cp "true") then Scanned (JBool true) (drop 4 s)
          else if startswith s (cp "false") then Scanned (JBool false) (drop 5 s)
          else if startswith s (cp "NaN") then Scanned (JFloat (cp "NaN")) (drop 3 s)
          else if startswith s (cp "Infinity")
          then Scanned (JFloat (cp "Infinity")) (drop 8 s)
          else if startswith s (cp "-Infinity")
          then Scanned (JFloat (cp "-Infinity")) (drop 9 s)
          else scan_of (match_number s)
      end
  end

(** The members of an object, [s] at the opening quote of a key; [acc] is
    the dict built so far.  Every error of its own goes through
    [raise_errmsg]. *)
with parse_members (fuel limit : nat) (acc : dict) (s : str) {struct fuel} : scan :=
  match fuel with
  | 0 => Starved
  | S fuel =>
      match s with
      | [] => Fails (errmsg limit)
      | c :: s1 =>
          if is_quote c then
            match scanstring s1 with
            | Raises _ => Fails (errmsg limit)
            | Returns (key, s2) =>
                match skip_ws s2 with
                | [] => Fails (errmsg limit)
                | c2 :: s3 =>
                    if ch ":" c2 then
                      match scan_once fuel limit (skip_ws s3) with
                      | Scanned v s4 =>
                          let acc' := dict_set key v acc in
                          match skip_ws s4 with
                          | [] => Fails (errmsg limit)
                          | c5 :: s6 =>
                              if ch "}" c5 then Scanned (JObject acc') s6
                              else if ch "," c5
                              then parse_members fuel limit acc' (skip_ws s6)
                              else Fails (errmsg limit)
                          end
                      | Fails e => Fails e
                      | Starved => Starved
                      end
                    else Fails (errmsg limit)
                end
            end
          else Fails (errmsg limit)
      end
  end

(** The elements of an array, [s] at the start of an element; [acc] is the
    list built so far.  A missing element leaves as [StopIteration], a
    missing comma goes through [raise_errmsg]. *)
with parse_elements (fuel limit : nat) (acc : list json) (s : str) {struct fuel} : scan :=
  match fuel with
  | 0 => Starved
  | S fuel =>
      match scan_once fuel limit s with
      | Scanned v s1 =>
          match skip_ws s1 with
          | [] => Fails (errmsg limit)
          | c :: s2 =>
              if ch "]" c then Scanned (JArray (acc ++ [v])) s2
              else if ch "," c then parse_elements fuel limit (acc ++ [v]) (skip_ws s2)
              else Fails (errmsg limit)
          end
      | Fails e => Fails e
      | Starved => Starved
      end
  end.
End Scanner.

(** [json.loads(s)]: one value, surrounded by JSON whitespace only.  Two
    steps per character of [s] are enough (see [scan_fed]), so the last
    branch is never taken: a [RecursionError] comes from the scanner
    alone. *)
Definition json_loads (limit : recursion) (s : str) : outcome json :=
  match scan_once (errmsg_levels limit) (S (2 * length s)) (levels limit) (skip_ws s) with
  | Scanned v rest =>
      match skip_ws rest with
      | [] => Returns v
      | _ :: _ => Raises JSONDecodeError
      end
  | Fails e => Raises e
  | Starved => Raises RecursionError
  end.

(** ** Response normalisation ([extract_invoice_data_with_gemini], the [try] block) *)

(** What the page shows through [st.error]. *)
Inductive ui_event :=
| st_error (message : str) (e : exn).

Definition fence_open : str := cp "```json".
Definition fence_close : str := cp "```".

(** [if result_text.startswith("```json"): result_text = result_text[7:]] *)
Definition cut_prefix (result_text : str) : str :=
  if startswith result_text fence_open then drop 7 result_text else result_text.

(** [if result_text.endswith("```"): result_text = result_text[:-3]] *)
Definition cut_suffix (result_text : str) : str :=
  if endswith result_text fence_close
  then take (length result_text - 3) result_text else result_text.

(** The text handed to [json.loads]. *)
Definition clean (result_text : str) : str :=
  strip (cut_suffix (cut_prefix result_text)).

(** [json.loads] under [except Exception]: the value returned ([JNull] is
    Python's [None]) and what is reported. *)
Definition parse_or_report (limit : recursion) (text : str) : json * list ui_event :=
  match json_loads limit text with
  | Returns data => (data, [])
  | Raises e => (JNull, [st_error (cp "Gemini extraction failed") e])
  end.

(** From [result_text = response.text] to the end of the function. *)
Definition normalize (limit : recursion) (result_text : str) : json * list ui_event :=
  parse_or_report limit (clean result_text).

Section Gemini.
(** The recursion levels left when [json.loads] is called. *)
Variable limit : recursion.
(** [Image.open] and [model.generate_content(...).text] are the outside
    world. *)
Context {image : Type}.
Variable Image_open : str → outcome image.
Variable generate_content : list image → outcome str.

(** The loop over [image_paths]: the images opened so far, or the report
    of the first one that could not be opened. *)
Fixpoint load_images (image_paths : list str) (images : list image)
  : list image + ui_event :=
  match image_paths with
  | [] => inl images
  | path :: rest =>
      match Image_open path with
      | Raises e => inr (st_error (cp "Could not load image " ++ path) e)
      | Returns img => load_images rest (images ++ [img])
      end
  end.

Definition extract_invoice_data_with_gemini (image_paths : list str)
  : json * list ui_event :=
  match load_images image_paths [] with
  | inr report => (JNull, [report])
  | inl images =>
      match generate_content images with
      | Raises e => (JNull, [st_error (cp "Gemini extraction failed") e])
      | Returns result_text => normalize limit result_text
      end
  end.
End Gemini.

(** ** Image intake ([save_uploaded_images]) *)

Record uploaded_file := { name : str; getbuffer : list N }.

(** Directories, and the content of each regular file. *)
Record filesystem := { dirs : gset str; files : gmap str (list N) }.

(** I/O errors are decided by the operating system. *)
Record os_faults := {
  makedirs_fails : filesystem → str → bool;
  open_fails : filesystem → str → bool
}.

(** [os.path.join(a, b)] on POSIX. *)
Definition os_path_join (a b : str) : str :=
  if startswith b (cp "/") then b
  else if bool_decide (a = []) || endswith a (cp "/") then a ++ b
  else a ++ cp "/" ++ b.

Definition upload_dir : str := cp "uploaded_images".

Section Intake.
Variable os : os_faults.

(** [os.makedirs(d, exist_ok=True)] *)
Definition makedirs (fs : filesystem) (d : str) : outcome filesystem :=
  if makedirs_fails os fs d then Raises OSError
  else Returns {| dirs := {[d]} ∪ dirs fs; files := files fs |}.

(** [with open(path, "wb") as f: f.write(content)] *)
Definition write_file (fs : filesystem) (path : str) (content : list N)
  : outcome filesystem :=
  if open_fails os fs path then Raises OSError
  else Returns {| dirs := dirs fs; files := <[path := content]> (files fs) |}.

(** The [for] loop; [paths] is the list built so far. *)
Fixpoint save_each (fs : filesystem) (paths : list str)
    (uploaded_files : list uploaded_file) : outcome (list str * filesystem) :=
  match uploaded_files with
  | [] => Returns (paths, fs)
  | file :: rest =>
      let file_path := os_path_join upload_dir (name file) in
      fs' ← write_file fs file_path (getbuffer file);
      save_each fs' (paths ++ [file_path]) rest
  end.

(** The function has no handler: an [OSError] leaves it. *)
Definition save_uploaded_images (fs : filesystem)
    (uploaded_files : list uploaded_file) : outcome (list str * filesystem) :=
  fs' ← makedirs fs upload_dir;
  save_each fs' [] uploaded_files.
End Intake.

(** ** The two tables *)

Module InvoiceHeader.
(** A row of [invoice_header].  The extracted columns hold the Python
    value the row was built from ([JNull] is NULL). *)
Record t := {
  id : N;
  supplier : json;
  invoice_date : json;
  total_amount : json;
  tax : json;
  image_paths : str;
  created_at : N
}.
End InvoiceHeader.

Module InvoiceLineItem.
Record t := {
  id : N;
  header_id : N;
  description : json;
  quantity : json;
  unit_price : json;
  amount : json
}.
End InvoiceLineItem.

(** Rows are kept in rowid (insertion) order. *)
Record database := {
  invoice_header : list InvoiceHeader.t;
  invoice_line_items : list InvoiceLineItem.t
}.

(** SQLite gives a new row the largest rowid plus one. *)
Definition next_rowid (ids : list N) : N := (1 + foldr N.max 0 ids)%N.

(** The engine may refuse a statement (constraint violation, value it
    cannot bind, lost connection, locked database): an INSERT, the COMMIT,
    or the SELECT of a header by its key. *)
Record engine := {
  insert_header_fails : database → InvoiceHeader.t → bool;
  insert_line_fails : database → InvoiceLineItem.t → bool;
  commit_fails : database → bool;
  select_fails : database → N → bool
}.

(** ** The ORM session *)

(** An object built by a mapped class and not yet inserted: its key (and
    [created_at]) are still unset. *)
Inductive transient :=
| NewHeader (supplier invoice_date total_amount tax : json) (image_paths : str)
| NewLine (header_id : N) (description quantity unit_price amount : json).

(** [stored] is what is committed, [work] what the open transaction sees,
    [new] the objects added and not yet flushed. *)
Record session := {
  stored : database;
  work : database;
  new : list transient
}.

(** [Session()] *)
Definition Session (db : database) : session :=
  {| stored := db; work := db; new := [] |}.

(** Code running in a session: it may raise, and the session goes on. *)
Definition M (A : Type) : Type := session → outcome A * session.

#[global] Instance M_ret : MRet M := λ A a σ, (Returns a, σ).
#[global] Instance M_bind : MBind M := λ A B k m σ,
  match m σ with
  | (Returns a, σ') => k a σ'
  | (Raises e, σ') => (Raises e, σ')
  end.

Definition lift {A} (r : outcome A) : M A := λ σ, (r, σ).

(** [try: body except Exception as e: handler(e)] *)
Definition try_except {A} (body : M A) (handler : exn → M A) : M A := λ σ,
  match body σ with
  | (Returns a, σ') => (Returns a, σ')
  | (Raises e, σ') => handler e σ'
  end.

(** [try: body finally: cleanup] *)
Definition try_finally {A} (body : M A) (cleanup : M ()) : M A := λ σ,
  match body σ with
  | (r, σ') =>
      match cleanup σ' with
      | (Returns _, σ'') => (r, σ'')
      | (Raises e, σ'') => (Raises e, σ'')
      end
  end.

Section Store.
Variable E : engine.
(** [datetime.utcnow()] when the header is inserted. *)
Variable now : N.

(** [session.add(obj)] *)
Definition session_add (obj : transient) : M () := λ σ,
  (Returns (), {| stored := stored σ; work := work σ; new := new σ ++ [obj] |}).

(** One INSERT: the new rowid, and the tables after it. *)
Definition insert (db : database) (obj : transient) : outcome (N * database) :=
  match obj with
  | NewHeader supplier invoice_date total_amount tax image_paths =>
      let row := InvoiceHeader.Build_t
                   (next_rowid (InvoiceHeader.id <$> invoice_header db))
                   supplier invoice_date total_amount tax image_paths now in
      if insert_header_fails E db row then Raises DBAPIError
      else Returns (InvoiceHeader.id row,
                    {| invoice_header := invoice_header db ++ [row];
                       invoice_line_items := invoice_line_items db |})
  | NewLine header_id description quantity unit_price amount =>
      let row := InvoiceLineItem.Build_t
                   (next_rowid (InvoiceLineItem.id <$> invoice_line_items db))
                   header_id description quantity unit_price amount in
      if insert_line_fails E db row then Raises DBAPIError
      else Returns (InvoiceLineItem.id row,
                    {| invoice_header := invoice_header db;
                       invoice_line_items := invoice_line_items db ++ [row] |})
  end.

Fixpoint insert_all (db : database) (objs : list transient)
  : outcome (list N * database) :=
  match objs with
  | [] => Returns ([], db)
  | obj :: rest =>
      '(k, db1) ← insert db obj;
      '(ks, db2) ← insert_all db1 rest;
      Returns (k :: ks, db2)
  end.

(** [session.flush()]: the pending objects are inserted, in the order they
    were added, inside the open transaction; the keys they receive are
    returned (the code reads them back as [obj.id]).  When an INSERT is
    refused the transaction is undone. *)
Definition session_flush : M (list N) := λ σ,
  match insert_all (work σ) (new σ) with
  | Returns (keys, db) =>
      (Returns keys, {| stored := stored σ; work := db; new := [] |})
  | Raises e =>
      (Raises e, {| stored := stored σ; work := stored σ; new := [] |})
  end.

(** COMMIT: the transaction's work becomes durable, or is lost. *)
Definition sql_commit : M () := λ σ,
  if commit_fails E (work σ)
  then (Raises DBAPIError, {| stored := stored σ; work := stored σ; new := [] |})
  else (Returns (), {| stored := work σ; work := work σ; new := [] |}).

(** [session.commit()]: flush, then COMMIT. *)
Definition session_commit : M () :=
  _ ← session_flush; sql_commit.

(** [header.id] once [session.commit()] has run.  The session is made with
    the default [expire_on_commit], so the commit has expired the object,
    and the attribute is loaded again by a SELECT on the primary key [key],
    in a new transaction.  The engine may refuse it; a row that is gone is
    an [ObjectDeletedError]. *)
Definition refreshed_id (key : N) : M N := λ σ,
  if select_fails E (work σ) key then (Raises DBAPIError, σ)
  else match filter (λ h, InvoiceHeader.id h = key) (invoice_header (work σ)) with
       | h :: _ => (Returns (InvoiceHeader.id h), σ)
       | [] => (Raises ObjectDeletedError, σ)
       end.

(** [session.rollback()] *)
Definition session_rollback : M () := λ σ,
  (Returns (), {| stored := stored σ; work := stored σ; new := [] |}).

(** [session.close()]: whatever is not committed is given up. *)
Definition session_close : M () := session_rollback.

(** [obj.get(key, default)] on whatever [json.loads] returned: only a
    [dict] has the method. *)
Definition py_get (obj : json) (key : str) (dflt : json) : outcome json :=
  match obj with
  | JObject d => Returns (default dflt (dict_get key d))
  | _ => Raises AttributeError
  end.

(** The values [for item in obj] runs over. *)
Definition py_iter (obj : json) : outcome (list json) :=
  match obj with
  | JArray l => Returns l
  | JObject d => Returns (JString <$> d.*1)
  | JString s => Returns ((λ c, JString [c]) <$> s)
  | _ => Raises TypeError
  end.

(** [InvoiceHeader(supplier=extracted_data.get("supplier"), ...)] *)
Definition new_header (extracted_data : json) (image_paths : list str)
  : outcome transient :=
  supplier ← py_get extracted_data (cp "supplier") JNull;
  invoice_date ← py_get extracted_data (cp "invoice_date") JNull;
  total_amount ← py_get extracted_data (cp "total_amount") JNull;
  tax ← py_get extracted_data (cp "tax") JNull;
  Returns (NewHeader supplier invoice_date total_amount tax
             (join (cp ",") image_paths)).

(** [InvoiceLineItem(header_id=header.id, description=item.get("description"), ...)] *)
Definition new_line (header_id : N) (item : json) : outcome transient :=
  description ← py_get item (cp "description") JNull;
  quantity ← py_get item (cp "quantity") JNull;
  unit_price ← py_get item (cp "unit_price") JNull;
  amount ← py_get item (cp "amount") JNull;
  Returns (NewLine header_id description quantity unit_price amount).

(** The [for item in ...] loop. *)
Fixpoint add_lines (header_id : N) (items : list json) : M () :=
  match items with
  | [] => mret ()
  | item :: rest =>
      line ← lift (new_line header_id item);
      _ ← session_add line;
      add_lines header_id rest
  end.

(** The [try] block of [save_invoice_to_db]: [header.id] is read after the
    flush for the lines, and once more, after the commit, for the value
    returned. *)
Definition save_invoice_body (extracted_data : json) (image_paths : list str)
  : M (option N * list ui_event) :=
  header ← lift (new_header extracted_data image_paths);
  _ ← session_add header;
  keys ← session_flush;
  let header_id := default 0%N (head keys) in
  line_items ← lift (py_get extracted_data (cp "line_items") (JArray []));
  items ← lift (py_iter line_items);
  _ ← add_lines header_id items;
  _ ← session_commit;
  invoice_id ← refreshed_id header_id;
  mret (Some invoice_id, []).

(** [save_invoice_to_db]: what it returns ([None] or the header's id) and
    reports, and the database it leaves. *)
Definition save_invoice_to_db (db : database) (extracted_data : json)
    (image_paths : list str) : outcome (option N * list ui_event) * database :=
  let '(r, σ) :=
    try_finally
      (try_except (save_invoice_body extracted_data image_paths)
         (λ e, _ ← session_rollback;
               mret (None, [st_error (cp "Database save failed") e])))
      session_close (Session db) in
  (r, stored σ).
End Store.

(** ** Reading back ([get_all_invoices], [get_invoice_detail]) *)

(** [ORDER BY key DESC] as SQLite's sorter does it: rows with equal keys
    stay in the order the table scan met them. *)
Fixpoint insert_desc {A} (key : A → N) (x : A) (l : list A) : list A :=
  match l with
  | [] => [x]
  | y :: l' => if (key x <? key y)%N then y :: insert_desc key x l' else x :: l
  end.

Fixpoint order_by_desc {A} (key : A → N) (l : list A) : list A :=
  match l with
  | [] => []
  | x :: l' => insert_desc key x (order_by_desc key l')
  end.

(** An object loaded by a query.  Its columns are loaded; the relationship
    [line_items] is lazy: it is fetched on first access, through the session
    the object belongs to. *)
Record instance := {
  columns : InvoiceHeader.t;
  in_session : bool
}.

Definition loaded (row : InvoiceHeader.t) : instance :=
  {| columns := row; in_session := true |}.

(** What [session.close()] does to a loaded object. *)
Definition detach (o : instance) : instance :=
  {| columns := columns o; in_session := false |}.

(** [invoice.line_items] *)
Definition line_items (db : database) (o : instance)
  : outcome (list InvoiceLineItem.t) :=
  if in_session o
  then Returns (filter (λ l, InvoiceLineItem.header_id l = InvoiceHeader.id (columns o))
                  (invoice_line_items db))
  else Raises DetachedInstanceError.

Definition get_all_invoices (db : database) : list instance :=
  let invoices := loaded <$> order_by_desc InvoiceHeader.created_at (invoice_header db) in
  detach <$> invoices.

(** [.filter_by(id=invoice_id).first()] *)
Definition get_invoice_detail (db : database) (invoice_id : N) : option instance :=
  let invoice :=
    loaded <$> head (filter (λ h, InvoiceHeader.id h = invoice_id) (invoice_header db)) in
  detach <$> invoice.

(** [invoice.image_paths.split(",")], as the detail page does. *)
Definition shown_paths (o : instance) : list str :=
  split 44 (InvoiceHeader.image_paths (columns o)).

(** ** Auxiliary definitions and test data *)

Definition blank (w : str) : Prop := Forall (λ c, isspace c = true) w.

Definition json_blank (w : str) : Prop := Forall (λ c, is_json_ws c = true) w.

(** [r] is what is left of [s] after at least one character. *)
Definition consumed (s r : str) : Prop := ∃ c p, s = c :: p ++ r.

Definition extraction_failed (e : exn) : json * list ui_event :=
  (JNull, [st_error (cp "Gemini extraction failed") e]).

(** The three exceptions of the decoder. *)
Definition decoder_error (e : exn) : Prop :=
  e = JSONDecodeError ∨ e = ValueError ∨ e = RecursionError.

(** The procedure as the specification words it: trim, cut the opening
    fence, cut the closing fence, trim, parse. *)
Definition spec_normalize (limit : recursion) (raw : str) : json * list ui_event :=
  let t1 := strip raw in
  let t2 := if startswith t1 fence_open then drop 7 t1 else t1 in
  let t3 := if endswith t2 fence_close then take (length t2 - 3) t2 else t2 in
  let t4 := strip t3 in
  parse_or_report limit t4.

(** The exact fence format: opening marker, line feed, the text, line
    feed, closing marker. *)
Definition wrap_in_fence (j : str) : str :=
  fence_open ++ [10%N] ++ j ++ [10%N] ++ fence_close.

(** A fenced empty object with one space in front of the fence. *)
Definition spaced_fence : str := cp " " ++ wrap_in_fence (cp "{}").

(** What [save_invoice_to_db] returns when it gives up. *)
Definition save_failed (e : exn) (db : database)
  : outcome (option N * list ui_event) * database :=
  (Returns (None, [st_error (cp "Database save failed") e]), db).

(** The objects the loop builds. *)
Fixpoint new_lines (header_id : N) (items : list json) : outcome (list transient) :=
  match items with
  | [] => Returns []
  | item :: rest =>
      line ← new_line header_id item;
      lines ← new_lines header_id rest;
      Returns (line :: lines)
  end.

(** The row an inserted line object becomes. *)
Definition line_row (line : transient) (row : InvoiceLineItem.t) : Prop :=
  line = NewLine (InvoiceLineItem.header_id row) (InvoiceLineItem.description row)
           (InvoiceLineItem.quantity row) (InvoiceLineItem.unit_price row)
           (InvoiceLineItem.amount row).

Definition is_new_line (obj : transient) : Prop :=
  match obj with NewLine _ _ _ _ _ => True | NewHeader _ _ _ _ _ => False end.

(** [db] with one more header and its lines. *)
Definition appended (db : database) (h : InvoiceHeader.t)
    (rows : list InvoiceLineItem.t) : database :=
  {| invoice_header := invoice_header db ++ [h];
     invoice_line_items := invoice_line_items db ++ rows |}.

(** The rows one call writes: the header [h], with the next key, the
    columns read from the data, the comma-join of the locators and the
    clock; and one row per item of [line_items], in order, each with the
    columns read from its item and referring to [h]. *)
Definition rows_of_call (now : N) (db : database) (extracted_data : json)
    (image_paths : list str) (items : list json)
    (h : InvoiceHeader.t) (rows : list InvoiceLineItem.t) : Prop :=
  InvoiceHeader.id h = next_rowid (InvoiceHeader.id <$> invoice_header db) ∧
  InvoiceHeader.image_paths h = join (cp ",") image_paths ∧
  InvoiceHeader.created_at h = now ∧
  new_header extracted_data image_paths
  = Returns (NewHeader (InvoiceHeader.supplier h) (InvoiceHeader.invoice_date h)
               (InvoiceHeader.total_amount h) (InvoiceHeader.tax h)
               (InvoiceHeader.image_paths h)) ∧
  py_get extracted_data (cp "line_items") (JArray []) ≫= py_iter = Returns items ∧
  Forall2 (λ item row,
             InvoiceLineItem.header_id row = InvoiceHeader.id h ∧
             new_line (InvoiceHeader.id h) item
             = Returns (NewLine (InvoiceHeader.id h) (InvoiceLineItem.description row)
                          (InvoiceLineItem.quantity row) (InvoiceLineItem.unit_price row)
                          (InvoiceLineItem.amount row))) items rows.

(** An extracted invoice of the shape the prompt asks for: an object
    whose [line_items], if it has any, is a list of objects. *)
Definition invoice_shaped (extracted_data : json) (items : list json) : Prop :=
  ∃ d, extracted_data = JObject d ∧
       default (JArray []) (dict_get (cp "line_items") d) = JArray items ∧
       Forall (λ item, ∃ o, item = JObject o) items.

(** An engine that accepts every INSERT and the COMMIT. *)
Definition accepts_writes (E : engine) : Prop :=
  (∀ db row, insert_header_fails E db row = false) ∧
  (∀ db row, insert_line_fails E db row = false) ∧
  (∀ db, commit_fails E db = false).




(** An engine that accepts everything. *)
Definition sound_engine : engine :=
  {| insert_header_fails := λ _ _, false;
     insert_line_fails := λ _ _, false;
     commit_fails := λ _, false;
     select_fails := λ _ _, false |}.

(** An engine that loses the connection once the header is in. *)
Definition dropping_engine : engine :=
  {| insert_header_fails := λ _ _, false;
     insert_line_fails := λ _ _, true;
     commit_fails := λ _, false;
     select_fails := λ _ _, false |}.

(** An engine that loses the connection once the COMMIT is through. *)
Definition late_engine : engine :=
  {| insert_header_fails := λ _ _, false;
     insert_line_fails := λ _ _, false;
     commit_fails := λ _, false;
     select_fails := λ _ _, true |}.

Definition empty_db : database := {| invoice_header := []; invoice_line_items := [] |}.

(** The recursion levels of the examples: something below CPython's
    default limit of 1000 frames, and the three levels of CPython 3.11. *)
Definition usual_limit : recursion := {| levels := 900; errmsg_levels := 3 |}.

(** The scenario of the specification: one header, one line. *)
Definition acme : str :=
  dq "{'supplier':'Acme','invoice_date':'2024-01-05','total_amount':120.5,'tax':null,'line_items':[{'description':'Widget','quantity':2,'unit_price':60.25,'amount':120.5}]}".

(** Most recent first. *)
Definition newer_first {A} (key : A → N) (a b : A) : Prop := (key b ≤ key a)%N.

Definition header_at (id created_at : N) : InvoiceHeader.t :=
  InvoiceHeader.Build_t id JNull JNull JNull JNull [] created_at.

Definition three_headers : database :=
  {| invoice_header := [header_at 1 10; header_at 2 20; header_at 3 30];
     invoice_line_items := [] |}.

(** An extracted invoice with one line. *)
Definition widget_invoice : json :=
  JObject [(cp "supplier", JString (cp "Acme"));
           (cp "line_items", JArray [JObject [(cp "description", JString (cp "Widget"))]])].

(** A stored invoice with one line. *)
Definition one_invoice : database :=
  {| invoice_header := [header_at 1 10];
     invoice_line_items := [InvoiceLineItem.Build_t 1 1 JNull JNull JNull JNull] |}.

(** An upload called [a,b.png]. *)
Definition comma_locator : str := cp "uploaded_images/a,b.png".

(** Where an upload is written. *)
Definition locator (file : uploaded_file) : str :=
  os_path_join upload_dir (name file).

(** The files after the loop: each upload written at its locator, in
    order. *)
Definition written (m : gmap str (list N)) (uploaded_files : list uploaded_file)
  : gmap str (list N) :=
  foldl (λ m file, <[locator file := getbuffer file]> m) m uploaded_files.

(** An operating system that refuses nothing, and an empty disk. *)
Definition no_faults : os_faults :=
  {| makedirs_fails := λ _ _, false; open_fails := λ _ _, false |}.

Definition empty_fs : filesystem := {| dirs := ∅; files := ∅ |}.






Definition two_uploads : list uploaded_file :=
  [ {| name := cp "a.png"; getbuffer := [1; 2]%N |};
    {| name := cp "b.png"; getbuffer := [3]%N |} ].

(** ** The pages (the upload page's [Process Invoice] branch, the detail page) *)

(** [str(n)] *)
Fixpoint str_of_uint (u : Decimal.uint) : str :=
  match u with
  | Decimal.Nil => []
  | Decimal.D0 u => 48%N :: str_of_uint u
  | Decimal.D1 u => 49%N :: str_of_uint u
  | Decimal.D2 u => 50%N :: str_of_uint u
  | Decimal.D3 u => 51%N :: str_of_uint u
  | Decimal.D4 u => 52%N :: str_of_uint u
  | Decimal.D5 u => 53%N :: str_of_uint u
  | Decimal.D6 u => 54%N :: str_of_uint u
  | Decimal.D7 u => 55%N :: str_of_uint u
  | Decimal.D8 u => 56%N :: str_of_uint u
  | Decimal.D9 u => 57%N :: str_of_uint u
  end.

Definition str_of_N (n : N) : str := str_of_uint (N.to_uint n).

(** Whether the float a literal is read as is zero.  The decimal value of
    the literal is [m * 10 ^ k]; it rounds to zero (to nearest, ties to
    even) exactly when it is at most [2 ^ -1075], half the smallest
    positive double. *)
Definition float_is_zero (literal : str) : bool :=
  let unsigned := match literal with
                  | c :: s' => if ch "-" c then s' else literal
                  | [] => []
                  end in
  let '(ip, r) := digits unsigned in
  match ip with
  | [] => false
  | _ :: _ =>
      let '(fp, r1) := match r with
                       | p :: r' => if ch "." p then digits r' else ([], r)
                       | [] => ([], r)
                       end in
      let ex := match r1 with
                | _ :: sg :: r3 =>
                    if ch "-" sg then (- int_of_digits (digits r3).1)%Z
                    else if ch "+" sg then int_of_digits (digits r3).1
                    else int_of_digits (digits (sg :: r3)).1
                | _ => 0%Z
                end in
      let m := int_of_digits (ip ++ fp) in
      let k := (ex - Z.of_nat (length fp))%Z in
      (m =? 0)%Z || ((k <? 0)%Z && (m * 2 ^ 1075 <=? 10 ^ (- k))%Z)
  end.

(** [bool(v)] for what [json.loads] builds. *)
Definition truthy (v : json) : bool :=
  match v with
  | JNull => false
  | JBool b => b
  | JInt z => negb (z =? 0)%Z
  | JFloat literal => negb (float_is_zero literal)
  | JString s => negb (bool_decide (s = []))
  | JArray l => match l with [] => false | _ :: _ => true end
  | JObject d => match d with [] => false | _ :: _ => true end
  end.

(** [bool(invoice_id)] for what [save_invoice_to_db] returns. *)
Definition truthy_id (invoice_id : option N) : bool :=
  match invoice_id with
  | Some n => negb (n =? 0)%N
  | None => false
  end.

(** [st.session_state] *)
Inductive page_name := upload_page | list_page | detail_page.

Record session_state := {
  page : page_name;
  selected_invoice : option N
}.

Definition go_to_upload (st : session_state) : session_state :=
  {| page := upload_page; selected_invoice := selected_invoice st |}.

Definition go_to_list (st : session_state) : session_state :=
  {| page := list_page; selected_invoice := selected_invoice st |}.

Definition go_to_detail (invoice_id : N) (st : session_state) : session_state :=
  {| page := detail_page; selected_invoice := Some invoice_id |}.

(** What a page puts on the screen. *)
Inductive page_event :=
| reported (ev : ui_event)
| st_spinner (text : str)
| st_warning (text : str)
| st_success (text : str)
| st_error_text (text : str)
| st_button (label : str).

(** The disk, the database and the session state a script run works on. *)
Record world := {
  disk : filesystem;
  db : database;
  state : session_state
}.

Section Pages.
Variable limit : recursion.
Context {image : Type}.
Variable Image_open : str → outcome image.
Variable generate_content : list image → outcome str.
Variable os : os_faults.
Variable E : engine.
Variable now : N.
(** What the two buttons under the success message return. *)
Variable view_clicked another_clicked : bool.

(** The branch [if invoice_id:] of the upload page. *)
Definition saved_successfully (invoice_id : N) (st : session_state)
  : list page_event * session_state :=
  let st1 := if view_clicked then go_to_detail invoice_id st else st in
  let st2 := if another_clicked then go_to_upload st1 else st1 in
  ([st_success (cp "Invoice #" ++ str_of_N invoice_id ++ cp " saved successfully!");
    st_button (cp "View this invoice"); st_button (cp "Upload another")], st2).

(** The body of [if st.button("Process Invoice", ...)].  An exception of
    [save_uploaded_images] is not handled and ends the run. *)
Definition process_invoice (w : world) (uploaded_files : list uploaded_file)
  : outcome (list page_event * world) :=
  match uploaded_files with
  | [] => Returns ([st_warning (cp "Please provide at least one image.")], w)
  | _ :: _ =>
      '(paths, disk') ← save_uploaded_images os (disk w) uploaded_files;
      let '(extracted, reports1) :=
        extract_invoice_data_with_gemini limit Image_open generate_content paths in
      let shown1 := [st_spinner (cp "Saving images...");
                     st_spinner (cp "Extracting data with Gemini...")]
                    ++ (reported <$> reports1) in
      if truthy extracted then
        let '(r, db') := save_invoice_to_db E now (db w) extracted paths in
        '(invoice_id, reports2) ← r;
        let shown2 := shown1 ++ [st_spinner (cp "Saving to database...")]
                      ++ (reported <$> reports2) in
        match invoice_id with
        | Some n =>
            if truthy_id invoice_id then
              let '(shown3, st') := saved_successfully n (state w) in
              Returns (shown2 ++ shown3,
                       {| disk := disk'; db := db'; state := st' |})
            else
              Returns (shown2 ++ [st_error_text (cp "Failed to save invoice.")],
                       {| disk := disk'; db := db'; state := state w |})
        | None =>
            Returns (shown2 ++ [st_error_text (cp "Failed to save invoice.")],
                     {| disk := disk'; db := db'; state := state w |})
        end
      else
        Returns (shown1 ++ [st_error_text (cp "Extraction failed. Please try again.")],
                 {| disk := disk'; db := db w; state := state w |})
  end.
End Pages.

(** Which way the detail page goes (the rendering itself is left out). *)
Inductive detail_route :=
| NoSelection
| NotFound
| Render (invoice : instance).

(** The detail page up to [st.header]: the route taken, what is reported,
    and the session state. *)
Definition detail_page_route (db : database) (st : session_state)
  : detail_route * list page_event * session_state :=
  let invoice_id := selected_invoice st in
  if truthy_id invoice_id then
    match get_invoice_detail db (default 0%N invoice_id) with
    | None => (NotFound, [st_error_text (cp "Invoice not found.")], go_to_list st)
    | Some invoice => (Render invoice, [], st)
    end
  else (NoSelection, [st_error_text (cp "No invoice selected.")], go_to_list st).

(** The detail page's image grid: [st.columns(min(len(paths), 3))], and for
    each [i, path] of [enumerate(paths)] the index [i % 3] of the column
    the image goes to. *)
Definition grid_columns (image_paths : str) : nat :=
  length (split 44 image_paths) `min` 3.

Definition grid_cells (image_paths : str) : list (nat * str) :=
  imap (λ i path, (i `mod` 3, path)) (split 44 image_paths).

(** The key of an invoice's [View] button on the list page:
    [f"view_{inv.id}"]. *)
Definition view_key (inv : instance) : str :=
  cp "view_" ++ str_of_N (InvoiceHeader.id (columns inv)).

(** ** Consistency of the two tables *)

(** Keys are positive and unique, and every line refers to a header. *)
Record consistent (db : database) : Prop := {
  header_ids_NoDup : NoDup (InvoiceHeader.id <$> invoice_header db);
  line_ids_NoDup : NoDup (InvoiceLineItem.id <$> invoice_line_items db);
  header_ids_pos : Forall (λ h, 0 < InvoiceHeader.id h)%N (invoice_header db);
  lines_refer :
    Forall (λ l, InvoiceLineItem.header_id l ∈ InvoiceHeader.id <$> invoice_header db)
      (invoice_line_items db)
}.

(** The databases the program can build: the empty one, and what a call of
    [save_invoice_to_db] leaves, whatever the engine, the clock and the
    arguments. *)
Inductive reachable : database → Prop :=
| reachable_empty : reachable empty_db
| reachable_save E now db extracted_data image_paths :
    reachable db →
    reachable (save_invoice_to_db E now db extracted_data image_paths).2.

(** What was read of [s] before [r] ends with a character that is not a
    backquote. *)
Definition closes (s r : str) : Prop := ∃ p c, s = p ++ c :: r ∧ c ≠ 96%N.

(** ** JSON texts

    The grammar of RFC 8259, as a set of texts, with the three literals
    that Python's decoder reads besides ([NaN], [Infinity], [-Infinity]).
    It says nothing of the size of a number or of the depth of the
    nesting. *)

Definition is_hex (c : N) : bool :=
  is_digit c || (97 <=? c)%N && (c <=? 102)%N || (65 <=? c)%N && (c <=? 70)%N.

(** The characters between the quotes of a string: any character from the
    space on but the quote and the backslash; a backslash and one of the
    quote, the backslash, the slash, [b], [f], [n], [r], [t]; or a
    backslash, [u] and four hexadecimal digits. *)
Inductive json_chars : str → Prop :=
| chars_nil : json_chars []
| chars_plain c s :
    (32 ≤ c)%N → c ≠ 34%N → c ≠ 92%N → json_chars s → json_chars (c :: s)
| chars_escape e s :
    e ∈ [34; 92; 47; 98; 102; 110; 114; 116]%N → json_chars s →
    json_chars (92%N :: e :: s)
| chars_unicode h1 h2 h3 h4 s :
    is_hex h1 = true → is_hex h2 = true → is_hex h3 = true → is_hex h4 = true →
    json_chars s → json_chars (92%N :: 117%N :: h1 :: h2 :: h3 :: h4 :: s).

Definition all_digits (ds : str) : Prop := Forall (λ c, is_digit c = true) ds.

(** An optional minus, an integer part without a leading zero, an optional
    fraction, an optional exponent. *)
Inductive json_number : str → Prop :=
| number_parts sign int frac exp :
    sign = [] ∨ sign = [45%N] →
    int = [48%N] ∨ (∃ c ds, int = c :: ds ∧ is_digit c = true ∧ c ≠ 48%N ∧ all_digits ds) →
    frac = [] ∨ (∃ d ds, frac = 46%N :: d :: ds ∧ all_digits (d :: ds)) →
    exp = [] ∨ (∃ e sg d ds, exp = e :: sg ++ d :: ds ∧ (e = 101%N ∨ e = 69%N) ∧
                            (sg = [] ∨ sg = [43%N] ∨ sg = [45%N]) ∧
                            all_digits (d :: ds)) →
    json_number (sign ++ int ++ frac ++ exp).

(** A value; the elements of an array up to its closing bracket; the
    members of an object up to its closing brace. *)
Inductive json_value : str → Prop :=
| value_string b : json_chars b → json_value (34%N :: b ++ [34%N])
| value_number n : json_number n → json_value n
| value_literal l :
    l ∈ [cp "null"; cp "true"; cp "false"; cp "NaN"; cp "Infinity"; cp "-Infinity"] →
    json_value l
| value_empty_array w : json_blank w → json_value (91%N :: w ++ [93%N])
| value_array w es : json_blank w → json_elements es → json_value (91%N :: w ++ es)
| value_empty_object w : json_blank w → json_value (123%N :: w ++ [125%N])
| value_object w ms : json_blank w → json_members ms → json_value (123%N :: w ++ ms)
with json_elements : str → Prop :=
| elements_last v w :
    json_value v → json_blank w → json_elements (v ++ w ++ [93%N])
| elements_more v w1 w2 es :
    json_value v → json_blank w1 → json_blank w2 → json_elements es →
    json_elements (v ++ w1 ++ 44%N :: w2 ++ es)
with json_members : str → Prop :=
| members_last k w1 w2 v w3 :
    json_chars k → json_blank w1 → json_blank w2 → json_value v → json_blank w3 →
    json_members (34%N :: k ++ 34%N :: w1 ++ 58%N :: w2 ++ v ++ w3 ++ [125%N])
| members_more k w1 w2 v w3 w4 ms :
    json_chars k → json_blank w1 → json_blank w2 → json_value v → json_blank w3 →
    json_blank w4 → json_members ms →
    json_members (34%N :: k ++ 34%N :: w1 ++ 58%N :: w2 ++ v ++ w3 ++ 44%N :: w4 ++ ms).

(** A JSON text: one value, with blanks around it. *)
Definition json_text (s : str) : Prop :=
  ∃ w1 v w2, json_blank w1 ∧ json_value v ∧ json_blank w2 ∧ s = w1 ++ v ++ w2.

(** The opening brackets of a text, and a run of [n] digits or more in
    it. *)
Definition count_open (s : str) : nat :=
  length (filter (λ c, c = 91%N ∨ c = 123%N) s).

Definition digit_run (n : nat) (s : str) : Prop :=
  ∃ p ds r, s = p ++ ds ++ r ∧ all_digits ds ∧ n ≤ length ds.

(** Why the scanner fails on [s] with [limit] levels left: the text is
    not as the decoder expects it; or the nesting is too deep, and then
    the text has more opening brackets than there are levels to spare; or
    an integer is too long. *)
Definition scan_failure (errmsg_levels limit : nat) (s : str) (e : exn) : Prop :=
  e = JSONDecodeError
  ∨ e = RecursionError ∧ limit < count_open s + errmsg_levels
  ∨ e = ValueError ∧ digit_run (S int_max_str_digits) s.

(** * Properties *)

(** ** Strings *)

Lemma fence_open_eq : fence_open = [96; 96; 96; 106; 115; 111; 110]%N.
Proof. reflexivity. Qed.

Lemma fence_close_eq : fence_close = [96; 96; 96]%N.
Proof. reflexivity. Qed.

Lemma startswith_true s p : startswith s p = true ↔ p `prefix_of` s.
Proof. apply bool_decide_eq_true. Qed.

Lemma startswith_false s p : startswith s p = false ↔ ¬ p `prefix_of` s.
Proof. apply bool_decide_eq_false. Qed.

Lemma endswith_true s p : endswith s p = true ↔ p `suffix_of` s.
Proof. apply bool_decide_eq_true. Qed.

Lemma endswith_false s p : endswith s p = false ↔ ¬ p `suffix_of` s.
Proof. apply bool_decide_eq_false. Qed.

Lemma startswith_head_ne (c c' : N) s p :
  c ≠ c' → startswith (c :: s) (c' :: p) = false.
Proof.
  intros Hne. apply startswith_false. intros Hp.
  apply prefix_cons_inv_1 in Hp. congruence.
Qed.

Lemma endswith_last_ne (c c' : N) s p :
  c ≠ c' → endswith (s ++ [c]) (p ++ [c']) = false.
Proof.
  intros Hne. apply endswith_false. intros Hs.
  apply suffix_snoc_inv_1 in Hs. congruence.
Qed.

Lemma json_ws_isspace c : is_json_ws c = true → isspace c = true.
Proof.
  unfold is_json_ws, ch. rewrite !orb_true_iff, !N.eqb_eq.
  intros [[[->| ->]| ->]| ->]; reflexivity.
Qed.

Lemma json_blank_blank w : json_blank w → blank w.
Proof. intros H. eapply Forall_impl; [done|]. apply json_ws_isspace. Qed.

Lemma isspace_backquote c : isspace c = true → c ≠ 96%N.
Proof. intros H ->. discriminate H. Qed.

Lemma lstrip_blank w : blank w → lstrip w = [].
Proof. induction 1 as [|c w Hc _ IH]; simpl; [done|]. by rewrite Hc. Qed.

Lemma lstrip_blank_app w s : blank w → lstrip (w ++ s) = lstrip s.
Proof. induction 1 as [|c w Hc _ IH]; simpl; [done|]. by rewrite Hc. Qed.

Lemma lstrip_app s t :
  lstrip (s ++ t) = if forallb isspace s then lstrip t else lstrip s ++ t.
Proof.
  induction s as [|c s IH]; simpl; [done|].
  destruct (isspace c); simpl; [apply IH | done].
Qed.

Lemma forallb_blank w : forallb isspace w = true ↔ blank w.
Proof.
  unfold blank. rewrite forallb_forall, Forall_forall.
  split; intros H x Hx; apply H; by apply list_elem_of_In.
Qed.

Lemma blank_reverse w : blank w → blank (reverse w).
Proof. unfold blank. by rewrite Forall_reverse. Qed.

Lemma rstrip_blank_app s w : blank w → rstrip (s ++ w) = rstrip s.
Proof.
  intros Hw. unfold rstrip. rewrite reverse_app.
  by rewrite lstrip_blank_app by by apply blank_reverse.
Qed.

Lemma strip_blank_l w s : blank w → strip (w ++ s) = strip s.
Proof. intros Hw. unfold strip. by rewrite lstrip_blank_app. Qed.

Lemma strip_blank_r s w : blank w → strip (s ++ w) = strip s.
Proof.
  intros Hw. unfold strip. rewrite lstrip_app.
  destruct (forallb isspace s) eqn:Hs.
  - apply forallb_blank in Hs. by rewrite !lstrip_blank.
  - by apply rstrip_blank_app.
Qed.

(** A text that starts with a non-blank character still does after
    [strip]. *)
Lemma strip_head c s : isspace c = false → ∃ s', strip (c :: s) = c :: s'.
Proof.
  intros Hc. unfold strip. simpl. rewrite Hc. unfold rstrip.
  rewrite reverse_cons, lstrip_app.
  destruct (forallb isspace (reverse s)).
  - exists []. simpl. by rewrite Hc.
  - exists (reverse (lstrip (reverse s))). by rewrite reverse_app.
Qed.

Lemma prefix_app_short {A} (p a b : list A) :
  p `prefix_of` a ++ b → length p ≤ length a → p `prefix_of` a.
Proof.
  revert a. induction p as [|x p IH]; intros a Hp Hlen; [apply prefix_nil|].
  destruct a as [|y a]; simpl in *; [lia|].
  pose proof (prefix_cons_inv_1 _ _ _ _ Hp) as ->.
  apply prefix_cons, IH; [by eapply prefix_cons_inv_2 | lia].
Qed.

Lemma suffix_app_short {A} (p a b : list A) :
  p `suffix_of` a ++ b → length p ≤ length b → p `suffix_of` b.
Proof.
  intros Hp Hlen. apply suffix_prefix_reverse.
  apply suffix_prefix_reverse in Hp. rewrite reverse_app in Hp.
  eapply prefix_app_short; [done|]. by rewrite !length_reverse.
Qed.

(** The closing fence cannot overlap the opening one. *)
Lemma fence_close_after_open r :
  fence_close `suffix_of` fence_open ++ r → fence_close `suffix_of` r.
Proof.
  intros H. destruct (decide (3 ≤ length r)) as [Hr|Hr].
  { by eapply suffix_app_short. }
  exfalso. rewrite fence_open_eq, fence_close_eq in H.
  apply suffix_prefix_reverse in H.
  destruct r as [|a [|b [|c r]]]; simpl in Hr; [| | |lia];
    vm_compute reverse in H;
    repeat (let H' := fresh in
            pose proof (prefix_cons_inv_1 _ _ _ _ H) as H';
            apply prefix_cons_inv_2 in H; try discriminate H'; subst).
Qed.

Lemma cut_suffix_app s : cut_suffix (s ++ fence_close) = s.
Proof.
  unfold cut_suffix. rewrite (proj2 (endswith_true _ _)) by by apply suffix_app_r.
  rewrite length_app. replace (length s + length fence_close - 3) with (length s)
    by (rewrite fence_close_eq; simpl; lia).
  by rewrite take_app_length.
Qed.

Lemma cut_prefix_app s : cut_prefix (fence_open ++ s) = s.
Proof.
  unfold cut_prefix. rewrite (proj2 (startswith_true _ _)) by by apply prefix_app_r.
  by rewrite fence_open_eq.
Qed.

Lemma cut_suffix_other s : ¬ fence_close `suffix_of` s → cut_suffix s = s.
Proof. intros H. unfold cut_suffix. by rewrite (proj2 (endswith_false _ _)). Qed.

Lemma cut_prefix_other s : ¬ fence_open `prefix_of` s → cut_prefix s = s.
Proof. intros H. unfold cut_prefix. by rewrite (proj2 (startswith_false _ _)). Qed.

(** The suffix test gives the same answer before and after the prefix is
    cut. *)
Lemma endswith_cut_prefix t :
  endswith (cut_prefix t) fence_close = endswith t fence_close.
Proof.
  destruct (decide (fence_open `prefix_of` t)) as [[r ->]|Hn].
  - rewrite cut_prefix_app. apply bool_decide_ext. split.
    + by apply suffix_app_r.
    + apply fence_close_after_open.
  - by rewrite cut_prefix_other.
Qed.

(** The two cuts commute. *)
Lemma cut_suffix_cut_prefix t :
  cut_suffix (cut_prefix t) = cut_prefix (cut_suffix t).
Proof.
  destruct (decide (fence_open `prefix_of` t)) as [[r ->]|Hn].
  - rewrite cut_prefix_app.
    destruct (decide (fence_close `suffix_of` r)) as [[r' ->]|Hr].
    + rewrite cut_suffix_app. rewrite (assoc_L (++)), cut_suffix_app.
      by rewrite cut_prefix_app.
    + rewrite (cut_suffix_other r) by done.
      rewrite cut_suffix_other, cut_prefix_app; [done|].
      intros H. by apply Hr, fence_close_after_open.
  - rewrite (cut_prefix_other t) by done.
    destruct (decide (fence_close `suffix_of` t)) as [[r' ->]|Hr].
    + rewrite cut_suffix_app. rewrite cut_prefix_other; [done|].
      intros H. apply Hn. by apply prefix_app_r.
    + rewrite cut_suffix_other by done. by rewrite cut_prefix_other.
Qed.

(** ** The decoder *)

Arguments cp : simpl never.
Arguments ch : simpl never.
Arguments startswith : simpl never.

Lemma consumed_cons c s r : r `suffix_of` s → consumed (c :: s) r.
Proof. intros [p ->]. by exists c, p. Qed.

Lemma consumed_suffix s r : consumed s r → r `suffix_of` s.
Proof. intros (c & p & ->). by exists (c :: p). Qed.

Lemma consumed_length s r : consumed s r → length r < length s.
Proof. intros (c & p & ->). simpl. rewrite length_app. lia. Qed.

Lemma consumed_suffix_r s r r' : consumed s r → r' `suffix_of` r → consumed s r'.
Proof.
  intros (c & p & ->) [q ->]. exists c, (p ++ q). by rewrite <-(assoc_L (++)).
Qed.

Lemma consumed_suffix_l s s' r : consumed s r → s `suffix_of` s' → consumed s' r.
Proof.
  intros (c & p & ->) [q ->]. destruct q as [|c' q].
  - by exists c, p.
  - exists c', (q ++ c :: p). simpl. by rewrite <-(assoc_L (++)).
Qed.

Lemma skip_ws_split s : ∃ w, json_blank w ∧ s = w ++ skip_ws s.
Proof.
  induction s as [|c s (w & Hw & IH)]; simpl.
  - exists []. split; [constructor | done].
  - destruct (is_json_ws c) eqn:Hc.
    + exists (c :: w). split; [by constructor|]. simpl. by rewrite <-IH.
    + exists []. split; [constructor | done].
Qed.

Lemma skip_ws_suffix s : skip_ws s `suffix_of` s.
Proof. destruct (skip_ws_split s) as (w & _ & H). by exists w. Qed.

Lemma skip_ws_nil s : skip_ws s = [] → json_blank s.
Proof.
  intros H. destruct (skip_ws_split s) as (w & Hw & Hs).
  rewrite H, (right_id_L [] (++)) in Hs. by subst.
Qed.

Lemma skip_ws_head c s : is_json_ws c = false → skip_ws (c :: s) = c :: s.
Proof. intros H. simpl. by rewrite H. Qed.

Create HintDb scan.
#[local] Hint Resolve suffix_cons_r skip_ws_suffix consumed_cons : scan.
#[local] Hint Extern 1 (_ `suffix_of` _) => reflexivity : scan.

Lemma cons_char_returns c m v r :
  cons_char c m = Returns (v, r) → ∃ v', m = Returns (v', r).
Proof.
  unfold cons_char. destruct m as [[v' r']|]; simpl; [|done].
  intros [= <- <-]. by exists v'.
Qed.

Lemma scanstring_suffix s v r : scanstring s = Returns (v, r) → r `suffix_of` s.
Proof.
  revert v r. induction s as [s IH] using (induction_ltof1 _ length).
  unfold ltof in IH. intros v r H.
  destruct s as [|c s1]; simpl in H; [done|].
  repeat case_match; simplify_eq; eauto with scan;
    try (apply cons_char_returns in H as [v' H]; apply IH in H;
         [eauto 20 with scan | simpl; lia]).
Qed.

Lemma cons_char_raises c m e : cons_char c m = Raises e → m = Raises e.
Proof. unfold cons_char. by destruct m as [[v' r']|]; simpl; intros [= <-]. Qed.

Lemma scanstring_raises s e : scanstring s = Raises e → e = JSONDecodeError.
Proof.
  revert e. induction s as [s IH] using (induction_ltof1 _ length).
  unfold ltof in IH. intros e H.
  destruct s as [|c s1]; simpl in H; [by simplify_eq|].
  repeat case_match; simplify_eq; try done;
    apply cons_char_raises in H; eapply IH in H; (done || (simpl; lia)).
Qed.

Lemma digits_suffix s : (digits s).2 `suffix_of` s.
Proof.
  induction s as [|c s IH]; simpl; [done|].
  destruct (is_digit c); [|done]. destruct (digits s); simpl in *.
  eauto with scan.
Qed.

Lemma after_fraction_suffix s r : after_fraction s = Some r → r `suffix_of` s.
Proof.
  unfold after_fraction. intros H.
  destruct s as [|p [|d s']]; [done..|].
  destruct (ch "." p && is_digit d); simplify_eq.
  pose proof (digits_suffix s'). eauto with scan.
Qed.

Lemma after_exponent_suffix s r : after_exponent s = Some r → r `suffix_of` s.
Proof.
  unfold after_exponent. intros H.
  repeat case_match; simplify_eq;
    match goal with
    | Hd : digits ?x = (_, ?r) |- _ =>
        pose proof (digits_suffix x) as Hs; rewrite Hd in Hs; simpl in Hs
    end; eauto with scan.
Qed.

Lemma match_number_returns s v r :
  match_number s = Returns (v, r) →
  consumed s r ∧ ((∃ z, v = JInt z) ∨ (∃ l, v = JFloat l)).
Proof.
  unfold match_number. intros H.
  assert (∀ c s2 r0, ((if ch "0" c then ([c], s2)
                       else let '(ds, r) := digits s2 in (c :: ds, r)) : str * str).2 = r0
                     → r0 `suffix_of` s2) as Hint.
  { intros c s2 r0 <-. destruct (ch "0" c); simpl; [done|].
    pose proof (digits_suffix s2). by destruct (digits s2). }
  assert (∀ r0, default (default r0 (after_fraction r0))
                  (after_exponent (default r0 (after_fraction r0))) `suffix_of` r0) as Htail.
  { intros r0. destruct (after_fraction r0) as [r1|] eqn:H1; simpl.
    - apply after_fraction_suffix in H1.
      destruct (after_exponent r1) as [r2|] eqn:H2; simpl; [|done].
      apply after_exponent_suffix in H2. by etrans.
    - destruct (after_exponent r0) as [r2|] eqn:H2; simpl; [|done].
      by apply after_exponent_suffix in H2. }
  destruct s as [|c0 s0]; [done|].
  destruct (ch "-" c0) eqn:Hm.
  - destruct s0 as [|c s2]; [done|]. destruct (is_digit c); [|done].
    destruct (if ch "0" c then _ else _) as [ip r0] eqn:Hip.
    apply (f_equal snd) in Hip. apply Hint in Hip. simpl in Hip.
    specialize (Htail r0).
    destruct (after_fraction r0) eqn:?; simpl in *;
      destruct (after_exponent _) eqn:?; simpl in *;
      repeat case_match; simplify_eq; (split; [|eauto]);
      apply consumed_cons, suffix_cons_r; by etrans.
  - destruct (is_digit c0); [|done].
    destruct (if ch "0" c0 then _ else _) as [ip r0] eqn:Hip.
    apply (f_equal snd) in Hip. apply Hint in Hip. simpl in Hip.
    specialize (Htail r0).
    destruct (after_fraction r0) eqn:?; simpl in *;
      destruct (after_exponent _) eqn:?; simpl in *;
      repeat case_match; simplify_eq; (split; [|eauto]);
      apply consumed_cons; by etrans.
Qed.

Lemma match_number_raises s e :
  match_number s = Raises e → e = JSONDecodeError ∨ e = ValueError.
Proof.
  unfold match_number. intros H. repeat case_match; simplify_eq; eauto.
Qed.

Lemma ch_true a c : ch a c = true → c = N_of_ascii a.
Proof. unfold ch. by intros ?%N.eqb_eq. Qed.

Lemma scan_of_scanned m v r : scan_of m = Scanned v r → m = Returns (v, r).
Proof. destruct m as [[??]|]; simpl; congruence. Qed.

Lemma scan_of_fails m e : scan_of m = Fails e → m = Raises e.
Proof. destruct m as [[??]|]; simpl; congruence. Qed.

Lemma scan_of_fed m : scan_of m ≠ Starved.
Proof. by destruct m as [[??]|]. Qed.

(** A value that is scanned leaves a proper suffix of the text; an object
    is read from an opening brace to the matching closing brace. *)
Lemma scan_returns k fuel :
  (∀ limit s v r, scan_once k fuel limit s = Scanned v r →
     consumed s r ∧ ∀ d, v = JObject d → ∃ body, s = 123%N :: body ++ 125%N :: r) ∧
  (∀ limit acc s v r, parse_members k fuel limit acc s = Scanned v r →
     (125%N :: r) `suffix_of` s ∧ ∃ d, v = JObject d) ∧
  (∀ limit acc s v r, parse_elements k fuel limit acc s = Scanned v r →
     consumed s r ∧ ∃ l, v = JArray l).
Proof.
  induction fuel as [|fuel (IHs & IHm & IHe)]; [by repeat split|].
  split; [|split].
  - intros limit s v r H. simpl in H. destruct s as [|c s']; [done|].
    destruct (is_quote c).
    { destruct (scanstring s') as [[v0 r0]|] eqn:Hs; simplify_eq/=.
      apply scanstring_suffix in Hs. split; [eauto with scan | done]. }
    destruct (ch "{" c) eqn:Hc.
    { apply ch_true in Hc as ->. destruct limit as [|limit]; [done|].
      pose proof (skip_ws_suffix s') as Hsuf.
      destruct (skip_ws s') as [|c1 s2]; [done|].
      destruct (ch "}" c1) eqn:Hc1.
      - apply ch_true in Hc1 as ->. simplify_eq. split.
        + apply consumed_cons. etrans; [|exact Hsuf]. eauto with scan.
        + intros d _. destruct Hsuf as [w ->]. by exists w.
      - apply IHm in H as [Hr [d ->]].
        assert (125%N :: r `suffix_of` s') as Hr' by by etrans.
        split.
        + apply consumed_cons. etrans; [|exact Hr']. eauto with scan.
        + intros d' _. destruct Hr' as [body ->]. by exists body. }
    destruct (ch "[" c).
    { destruct limit as [|limit]; [done|].
      pose proof (skip_ws_suffix s') as Hsuf.
      destruct (skip_ws s') as [|c1 s2]; [done|].
      destruct (ch "]" c1).
      - simplify_eq. split; [|done].
        apply consumed_cons. etrans; [|exact Hsuf]. eauto with scan.
      - apply IHe in H as [Hr [l ->]]. split; [|done].
        apply consumed_cons. etrans; [|exact Hsuf]. by apply consumed_suffix. }
    repeat (case_match;
              [simplify_eq; split; [apply consumed_cons, suffix_drop | done]|]).
    apply scan_of_scanned, match_number_returns in H as [H [[z ->]|[l ->]]]; done.
  - intros limit acc s v r H. simpl in H. destruct s as [|c s1]; [done|].
    destruct (is_quote c); [|done].
    destruct (scanstring s1) as [[key s2]|] eqn:Hkey; [|done].
    apply scanstring_suffix in Hkey.
    pose proof (skip_ws_suffix s2) as Hs2.
    destruct (skip_ws s2) as [|c2 s3]; [done|].
    destruct (ch ":" c2); [|done].
    pose proof (skip_ws_suffix s3) as Hs3.
    destruct (scan_once k fuel limit (skip_ws s3)) as [v4 s4| |] eqn:Hv; [|done..].
    apply IHs in Hv as [Hv%consumed_suffix _].
    pose proof (skip_ws_suffix s4) as Hs4.
    destruct (skip_ws s4) as [|c5 s6]; [done|].
    assert (c5 :: s6 `suffix_of` c :: s1) as Hall.
    { apply suffix_cons_r. do 2 (etrans; [|eassumption]).
      apply suffix_cons_r. by do 2 (etrans; [|eassumption]). }
    destruct (ch "}" c5) eqn:Hc5.
    { apply ch_true in Hc5 as ->. simplify_eq. eauto. }
    destruct (ch "," c5); [|done].
    apply IHm in H as [Hr Hd]. split; [|done].
    etrans; [exact Hr|]. etrans; [apply skip_ws_suffix|].
    etrans; [|exact Hall]. eauto with scan.
  - intros limit acc s v r H. simpl in H.
    destruct (scan_once k fuel limit s) as [v1 s1| |] eqn:Hv; [|done..].
    apply IHs in Hv as [Hv _].
    pose proof (skip_ws_suffix s1) as Hs1.
    destruct (skip_ws s1) as [|c s2]; [done|].
    destruct (ch "]" c).
    { simplify_eq. split; [|eauto].
      eapply consumed_suffix_r; [done|]. etrans; [|done]. eauto with scan. }
    destruct (ch "," c); [|done].
    apply IHe in H as [Hr Hl]. split; [|done].
    eapply consumed_suffix_r; [done|].
    etrans; [by apply consumed_suffix|]. etrans; [apply skip_ws_suffix|].
    etrans; [|done]. eauto with scan.
Qed.

(** The decoder raises nothing but its own error, the integer-size
    [ValueError] and the [RecursionError] of the scanner. *)
Lemma errmsg_decoder_error k limit : decoder_error (errmsg k limit).
Proof. unfold errmsg, decoder_error. case_decide; eauto. Qed.

Lemma scan_fails k fuel :
  (∀ limit s e, scan_once k fuel limit s = Fails e → decoder_error e) ∧
  (∀ limit acc s e, parse_members k fuel limit acc s = Fails e → decoder_error e) ∧
  (∀ limit acc s e, parse_elements k fuel limit acc s = Fails e → decoder_error e).
Proof.
  induction fuel as [|fuel (IHs & IHm & IHe)]; [by repeat split|].
  pose proof (errmsg_decoder_error k) as Hmsg.
  assert (decoder_error JSONDecodeError) as Hj by (by left).
  assert (decoder_error RecursionError) as Hr by (by right; right).
  split; [|split].
  - intros limit s e H. simpl in H. destruct s as [|c s']; [by simplify_eq|].
    repeat case_match; simplify_eq; eauto.
    apply scan_of_fails, match_number_raises in H. unfold decoder_error. tauto.
  - intros limit acc s e H. simpl in H.
    repeat case_match; simplify_eq; eauto.
  - intros limit acc s e H. simpl in H.
    repeat case_match; simplify_eq; eauto.
Qed.

(** Two steps per character are enough. *)
Lemma scan_fed k fuel :
  (∀ limit s, 2 * length s < fuel → scan_once k fuel limit s ≠ Starved) ∧
  (∀ limit acc s, 2 * length s < fuel → parse_members k fuel limit acc s ≠ Starved) ∧
  (∀ limit acc s, 2 * length s + 1 < fuel → parse_elements k fuel limit acc s ≠ Starved).
Proof.
  induction fuel as [|fuel (IHs & IHm & IHe)]; [repeat split; intros; lia|].
  split; [|split].
  - intros limit s Hlen H. simpl in H. destruct s as [|c s']; [done|].
    destruct (is_quote c); [by destruct (scanstring s') as [[??]|]|].
    pose proof (suffix_length _ _ (skip_ws_suffix s')) as Hs'.
    simpl in Hlen.
    repeat case_match; simplify_eq;
      try (by apply scan_of_fed in H);
      [eapply IHm | eapply IHe]; try exact H; simpl in *; lia.
  - intros limit acc s Hlen H. simpl in H. destruct s as [|c s1]; [done|].
    destruct (is_quote c); [|done].
    destruct (scanstring s1) as [[key s2]|] eqn:Hkey; [|done].
    apply scanstring_suffix, suffix_length in Hkey.
    pose proof (suffix_length _ _ (skip_ws_suffix s2)) as Hs2.
    destruct (skip_ws s2) as [|c2 s3]; [done|].
    destruct (ch ":" c2); [|done].
    pose proof (suffix_length _ _ (skip_ws_suffix s3)) as Hs3.
    simpl in Hlen, Hs2.
    destruct (scan_once k fuel limit (skip_ws s3)) as [v4 s4| |] eqn:Hv; [|done|].
    + apply (proj1 (scan_returns k fuel)) in Hv as [Hv%consumed_length _].
      pose proof (suffix_length _ _ (skip_ws_suffix s4)) as Hs4.
      destruct (skip_ws s4) as [|c5 s6]; [done|].
      pose proof (suffix_length _ _ (skip_ws_suffix s6)) as Hs6.
      simpl in Hs4.
      repeat case_match; simplify_eq. eapply IHm; [|exact H]. lia.
    + eapply IHs; [|exact Hv]. lia.
  - intros limit acc s Hlen H. simpl in H.
    destruct (scan_once k fuel limit s) as [v1 s1| |] eqn:Hv; [|done|].
    + apply (proj1 (scan_returns k fuel)) in Hv as [Hv%consumed_length _].
      pose proof (suffix_length _ _ (skip_ws_suffix s1)) as Hs1.
      destruct (skip_ws s1) as [|c s2]; [done|].
      pose proof (suffix_length _ _ (skip_ws_suffix s2)) as Hs2.
      simpl in Hs1.
      repeat case_match; simplify_eq. eapply IHe; [|exact H]. lia.
    + eapply IHs; [|exact Hv]. lia.
Qed.

Lemma json_loads_raises limit s e :
  json_loads limit s = Raises e → decoder_error e.
Proof.
  unfold json_loads. intros H.
  destruct (scan_once _ _ _ _) as [v r|e'|] eqn:Hscan.
  - destruct (skip_ws r); simplify_eq. by left.
  - simplify_eq. by eapply (proj1 (scan_fails _ _)).
  - exfalso. eapply (proj1 (scan_fed _ _)); [|exact Hscan].
    pose proof (suffix_length _ _ (skip_ws_suffix s)). lia.
Qed.

(** The text of a JSON object: blanks, an opening brace, ..., a closing
    brace, blanks. *)
Lemma json_loads_object limit j d :
  json_loads limit j = Returns (JObject d) →
  ∃ w1 body w2,
    json_blank w1 ∧ json_blank w2 ∧ j = w1 ++ 123%N :: body ++ 125%N :: w2.
Proof.
  unfold json_loads. intros H.
  destruct (scan_once _ _ _ _) as [v r| |] eqn:Hscan; [|done..].
  destruct (skip_ws r) eqn:Hr; simplify_eq.
  apply (proj1 (scan_returns _ _)) in Hscan as [_ Hbody].
  destruct (Hbody d eq_refl) as [body Hj].
  destruct (skip_ws_split j) as (w1 & Hw1 & Hw).
  exists w1, body, r. split_and!; [done | by apply skip_ws_nil | congruence].
Qed.

(** No JSON text starts with a backquote. *)
Lemma json_loads_backquote limit s :
  json_loads limit (96%N :: s) = Raises JSONDecodeError.
Proof.
  unfold json_loads. rewrite skip_ws_head by done. simpl.
  repeat match goal with
         | |- context [startswith _ (cp ?x)] =>
             let y := eval vm_compute in (cp x) in
             change (cp x) with y; rewrite startswith_head_ne by done
         end.
  reflexivity.
Qed.

(** ** The decoder accepts JSON texts only *)

(** Equations between concatenations. *)
Ltac app_eq :=
  simpl; repeat (rewrite <-(assoc_L (++)); simpl); rewrite ?(right_id_L [] (++)); done.

Lemma unescape_some e c :
  unescape e = Some c → e ∈ [34; 92; 47; 98; 102; 110; 114; 116]%N.
Proof.
  unfold unescape, is_quote, ch. intros H.
  repeat case_match; try done;
    repeat match goal with
           | H : (_ || _) = true |- _ => apply orb_true_iff in H as [H|H]
           | H : (_ =? _)%N = true |- _ => apply N.eqb_eq in H; subst
           end;
    apply list_elem_of_In; vm_compute; auto 10.
Qed.

Lemma hex_digit_some c d : hex_digit c = Some d → is_hex c = true.
Proof.
  unfold hex_digit, is_hex. intros H.
  repeat case_match; try done; by rewrite ?orb_true_r.
Qed.

Lemma hex4_some a b c d u :
  hex4 a b c d = Some u →
  is_hex a = true ∧ is_hex b = true ∧ is_hex c = true ∧ is_hex d = true.
Proof.
  unfold hex4.
  destruct (hex_digit a) eqn:Ha, (hex_digit b) eqn:Hb, (hex_digit c) eqn:Hc,
    (hex_digit d) eqn:Hd; try done.
  intros _. split_and!; by eapply hex_digit_some.
Qed.

Lemma scanstring_sound s v r :
  scanstring s = Returns (v, r) → ∃ b, s = b ++ 34%N :: r ∧ json_chars b.
Proof.
  revert v r. induction s as [s IH] using (induction_ltof1 _ length).
  unfold ltof in IH. intros v r H.
  assert (∀ x sk, length sk < length s →
                  cons_char x (scanstring sk) = Returns (v, r) →
                  ∃ b, sk = b ++ 34%N :: r ∧ json_chars b) as Hrec.
  { intros x sk Hlen [v' Hv']%cons_char_returns. by eapply IH. }
  destruct s as [|c s1]; simpl in H; [done|].
  destruct (is_quote c) eqn:Hq.
  { apply N.eqb_eq in Hq as ->. simplify_eq. exists []. split; [done | constructor]. }
  destruct (c <? 32)%N eqn:Hc32; [done|]. apply N.ltb_ge in Hc32.
  destruct (ch "\" c) eqn:Hbs.
  2:{ apply Hrec in H as (b & -> & Hb); [|simpl; lia].
      exists (c :: b). split; [done|]. constructor; try done.
      - intros ->. by vm_compute in Hq.
      - intros ->. by vm_compute in Hbs. }
  apply ch_true in Hbs as ->.
  destruct s1 as [|e s2]; [done|].
  destruct (ch "u" e) eqn:Hu.
  2:{ destruct (unescape e) as [c'|] eqn:He; [|done].
      apply Hrec in H as (b & -> & Hb); [|simpl; lia].
      exists (92%N :: e :: b). split; [done|].
      constructor; [by eapply unescape_some | done]. }
  apply ch_true in Hu as ->.
  destruct s2 as [|h1 [|h2 [|h3 [|h4 s3]]]]; try done.
  destruct (hex4 h1 h2 h3 h4) as [u|] eqn:Hhex; [|done].
  apply hex4_some in Hhex as (?&?&?&?).
  assert (∀ b, s3 = b ++ 34%N :: r → json_chars b →
               ∃ b0, 92%N :: 117%N :: h1 :: h2 :: h3 :: h4 :: s3 = b0 ++ 34%N :: r ∧
                     json_chars b0) as Hone.
  { intros b -> Hb. exists (92%N :: 117%N :: h1 :: h2 :: h3 :: h4 :: b).
    split; [done|]. by constructor. }
  destruct s3 as [|b0 [|e' [|k1 [|k2 [|k3 [|k4 s4]]]]]];
    try (apply Hrec in H as (b & Hs & Hb); [by eapply Hone | simpl; lia]).
  destruct (is_high_surrogate u && ch "\" b0 && ch "u" e') eqn:Hhigh.
  2:{ apply Hrec in H as (b & Hs & Hb); [by eapply Hone | simpl; lia]. }
  destruct (hex4 k1 k2 k3 k4) as [u2|] eqn:Hhex2; [|done].
  destruct (is_low_surrogate u2).
  2:{ apply Hrec in H as (b & Hs & Hb); [by eapply Hone | simpl; lia]. }
  apply andb_true_iff in Hhigh as [[_ Hb0]%andb_true_iff He'].
  apply ch_true in Hb0 as ->. apply ch_true in He' as ->.
  apply hex4_some in Hhex2 as (?&?&?&?).
  apply Hrec in H as (b & -> & Hb); [|simpl; lia].
  exists (92%N :: 117%N :: h1 :: h2 :: h3 :: h4
          :: 92%N :: 117%N :: k1 :: k2 :: k3 :: k4 :: b).
  split; [done|]. by repeat constructor.
Qed.

Lemma digits_spec s :
  s = (digits s).1 ++ (digits s).2 ∧ all_digits (digits s).1.
Proof.
  induction s as [|c s [IH1 IH2]]; simpl; [by split; [|constructor]|].
  destruct (is_digit c) eqn:Hc; [|by split; [|constructor]].
  destruct (digits s) as [ds r]. simpl in *. split; [by f_equal | by constructor].
Qed.

Lemma after_fraction_sound s r :
  after_fraction s = Some r →
  ∃ d ds, s = 46%N :: d :: ds ++ r ∧ all_digits (d :: ds).
Proof.
  unfold after_fraction. intros H.
  destruct s as [|p [|d s']]; [done..|].
  destruct (ch "." p && is_digit d) eqn:Hpd; simplify_eq.
  apply andb_true_iff in Hpd as [->%ch_true Hd].
  destruct (digits_spec s') as [Hs Hds].
  exists d, (digits s').1. split; [by do 2 f_equal | by constructor].
Qed.

Lemma after_exponent_sound s r :
  after_exponent s = Some r →
  ∃ e sg d ds, s = e :: sg ++ d :: ds ++ r ∧ (e = 101%N ∨ e = 69%N) ∧
               (sg = [] ∨ sg = [43%N] ∨ sg = [45%N]) ∧ all_digits (d :: ds).
Proof.
  unfold after_exponent. intros H.
  destruct s as [|e s1]; [done|].
  destruct (ch "e" e || ch "E" e) eqn:He; [|done].
  assert (e = 101%N ∨ e = 69%N) as Hee.
  { apply orb_true_iff in He as [->%ch_true| ->%ch_true]; auto. }
  assert (∀ s2, match digits s2 with ([], _) => None | (_ :: _, r) => Some r end = Some r →
                ∃ d ds, s2 = d :: ds ++ r ∧ all_digits (d :: ds)) as Hgo.
  { intros s2 Hd. destruct (digits_spec s2) as [Hs Hds].
    destruct (digits s2) as [[|d ds] r']; simplify_eq/=. by exists d, ds. }
  destruct s1 as [|sg s2].
  { by apply Hgo in H as (d & ds & [=] & _). }
  destruct (ch "-" sg || ch "+" sg) eqn:Hsg.
  - apply Hgo in H as (d & ds & -> & Hds). exists e, [sg], d, ds. split_and!; try done.
    apply orb_true_iff in Hsg as [->%ch_true| ->%ch_true]; auto.
  - apply Hgo in H as (d & ds & Hs & Hds). exists e, [], d, ds. split_and!; auto.
    by rewrite Hs.
Qed.

Lemma match_number_sound s v r :
  match_number s = Returns (v, r) → ∃ p, s = p ++ r ∧ json_number p.
Proof.
  unfold match_number. intros H.
  assert (∀ c s2 ip r0,
            is_digit c = true →
            (if ch "0" c then ([c], s2)
             else let '(ds, r) := digits s2 in (c :: ds, r)) = (ip, r0) →
            c :: s2 = ip ++ r0 ∧
            (ip = [48%N] ∨ ∃ c ds, ip = c :: ds ∧ is_digit c = true ∧ c ≠ 48%N ∧
                                   all_digits ds)) as Hint.
  { intros c s2 ip r0 Hc Hip. destruct (ch "0" c) eqn:H0.
    - apply ch_true in H0 as ->. simplify_eq. auto.
    - destruct (digits_spec s2) as [Hs Hds]. destruct (digits s2) as [ds r'].
      simplify_eq/=. split; [by f_equal|]. right. exists c, ds. split_and!; try done.
      intros ->. by vm_compute in H0. }
  assert (∀ sign c s2 ip r0,
            sign = [] ∨ sign = [45%N] →
            c :: s2 = ip ++ r0 →
            (ip = [48%N] ∨ ∃ c ds, ip = c :: ds ∧ is_digit c = true ∧ c ≠ 48%N ∧
                                   all_digits ds) →
            ∃ p, sign ++ c :: s2
                 = p ++ default (default r0 (after_fraction r0))
                          (after_exponent (default r0 (after_fraction r0))) ∧
                 json_number p) as Htail.
  { intros sign c s2 ip r0 Hsign -> Hip.
    destruct (after_fraction r0) as [r1|] eqn:H1; simpl.
    - apply after_fraction_sound in H1 as (d & ds & -> & Hds).
      destruct (after_exponent r1) as [r2|] eqn:H2; simpl.
      + apply after_exponent_sound in H2 as (e & sg & d' & ds' & -> & He & Hsg & Hds').
        exists (sign ++ ip ++ (46%N :: d :: ds) ++ (e :: sg ++ d' :: ds')). split.
        * app_eq.
        * constructor; eauto 10.
      + exists (sign ++ ip ++ (46%N :: d :: ds) ++ []). split.
        * app_eq.
        * constructor; eauto 10.
    - destruct (after_exponent r0) as [r2|] eqn:H2; simpl.
      + apply after_exponent_sound in H2 as (e & sg & d' & ds' & -> & He & Hsg & Hds').
        exists (sign ++ ip ++ [] ++ (e :: sg ++ d' :: ds')). split.
        * app_eq.
        * constructor; eauto 10.
      + exists (sign ++ ip ++ [] ++ []). split.
        * app_eq.
        * constructor; eauto 10. }
  destruct s as [|c0 s0]; [done|].
  destruct (ch "-" c0) eqn:Hm.
  - apply ch_true in Hm as ->.
    destruct s0 as [|c s2]; [done|]. destruct (is_digit c) eqn:Hc; [|done].
    destruct (if ch "0" c then _ else _) as [ip r0] eqn:Hip.
    apply Hint in Hip as [Hs Hip]; [|done].
    destruct (Htail [45%N] c s2 ip r0) as (p & Hp & Hnum); auto.
    assert (r = default (default r0 (after_fraction r0))
                  (after_exponent (default r0 (after_fraction r0)))) as ->.
    { destruct (after_fraction r0) eqn:?; simpl in *;
        destruct (after_exponent _) eqn:?; simpl in *;
        repeat case_match; by simplify_eq. }
    exists p. split; [exact Hp | done].
  - destruct (is_digit c0) eqn:Hc; [|done].
    destruct (if ch "0" c0 then _ else _) as [ip r0] eqn:Hip.
    apply Hint in Hip as [Hs Hip]; [|done].
    destruct (Htail [] c0 s0 ip r0) as (p & Hp & Hnum); auto.
    assert (r = default (default r0 (after_fraction r0))
                  (after_exponent (default r0 (after_fraction r0)))) as ->.
    { destruct (after_fraction r0) eqn:?; simpl in *;
        destruct (after_exponent _) eqn:?; simpl in *;
        repeat case_match; by simplify_eq. }
    exists p. split; [exact Hp | done].
Qed.

Lemma literal_split s lit : startswith s lit = true → s = lit ++ drop (length lit) s.
Proof. intros [k ->]%startswith_true. by rewrite drop_app_length. Qed.

Lemma skip_ws_cons s c r : skip_ws s = c :: r → ∃ w, json_blank w ∧ s = w ++ c :: r.
Proof.
  intros H. destruct (skip_ws_split s) as (w & Hw & Hs). exists w. by rewrite <-H.
Qed.

(** What the scanner reads is a value of the grammar. *)
Lemma scan_sound k fuel :
  (∀ limit s v r, scan_once k fuel limit s = Scanned v r →
     ∃ p, s = p ++ r ∧ json_value p) ∧
  (∀ limit acc s v r, parse_members k fuel limit acc s = Scanned v r →
     ∃ p, s = p ++ r ∧ json_members p) ∧
  (∀ limit acc s v r, parse_elements k fuel limit acc s = Scanned v r →
     ∃ p, s = p ++ r ∧ json_elements p).
Proof.
  induction fuel as [|fuel (IHs & IHm & IHe)]; [by repeat split|].
  split; [|split].
  - intros limit s v r H. simpl in H. destruct s as [|c s']; [done|].
    destruct (is_quote c) eqn:Hq.
    { apply N.eqb_eq in Hq as ->.
      destruct (scanstring s') as [[v0 r0]|] eqn:Hs; simplify_eq/=.
      apply scanstring_sound in Hs as (b & -> & Hb).
      exists (34%N :: b ++ [34%N]). split; [app_eq | by constructor]. }
    destruct (ch "{" c) eqn:Hc.
    { apply ch_true in Hc as ->. destruct limit as [|limit]; [done|].
      destruct (skip_ws s') as [|c1 s2] eqn:Hskip; [done|].
      apply skip_ws_cons in Hskip as (w & Hw & ->).
      destruct (ch "}" c1) eqn:Hc1.
      - apply ch_true in Hc1 as ->. simplify_eq.
        exists (123%N :: w ++ [125%N]). split; [app_eq | by constructor].
      - apply IHm in H as (ms & Hms & Hmem).
        exists (123%N :: w ++ ms). split; [rewrite Hms; app_eq | by constructor]. }
    destruct (ch "[" c) eqn:Hb.
    { apply ch_true in Hb as ->. destruct limit as [|limit]; [done|].
      destruct (skip_ws s') as [|c1 s2] eqn:Hskip; [done|].
      apply skip_ws_cons in Hskip as (w & Hw & ->).
      destruct (ch "]" c1) eqn:Hc1.
      - apply ch_true in Hc1 as ->. simplify_eq.
        exists (91%N :: w ++ [93%N]). split; [app_eq | by constructor].
      - apply IHe in H as (es & Hes & Helem).
        exists (91%N :: w ++ es). split; [rewrite Hes; app_eq | by constructor]. }
    assert (∀ lit, startswith (c :: s') lit = true →
                   lit ∈ [cp "null"; cp "true"; cp "false"; cp "NaN"; cp "Infinity";
                          cp "-Infinity"] →
                   ∃ p, c :: s' = p ++ drop (length lit) (c :: s') ∧ json_value p)
      as Hlit.
    { intros lit Hstart Hin. exists lit. split; [by apply literal_split|].
      by apply value_literal. }
    destruct (startswith (c :: s') (cp "null")) eqn:H1.
    { simplify_eq. apply (Hlit (cp "null")); [done|]. apply list_elem_of_In. simpl. auto 10. }
    destruct (startswith (c :: s') (cp "true")) eqn:H2.
    { simplify_eq. apply (Hlit (cp "true")); [done|]. apply list_elem_of_In. simpl. auto 10. }
    destruct (startswith (c :: s') (cp "false")) eqn:H3.
    { simplify_eq. apply (Hlit (cp "false")); [done|]. apply list_elem_of_In. simpl. auto 10. }
    destruct (startswith (c :: s') (cp "NaN")) eqn:H4.
    { simplify_eq. apply (Hlit (cp "NaN")); [done|]. apply list_elem_of_In. simpl. auto 10. }
    destruct (startswith (c :: s') (cp "Infinity")) eqn:H5.
    { simplify_eq. apply (Hlit (cp "Infinity")); [done|].
      apply list_elem_of_In. simpl. auto 10. }
    destruct (startswith (c :: s') (cp "-Infinity")) eqn:H6.
    { simplify_eq. apply (Hlit (cp "-Infinity")); [done|].
      apply list_elem_of_In. simpl. auto 10. }
    apply scan_of_scanned, match_number_sound in H as (p & Hp & Hnum).
    exists p. split; [done | by constructor].
  - intros limit acc s v r H. simpl in H. destruct s as [|c s1]; [done|].
    destruct (is_quote c) eqn:Hq; [|done]. apply N.eqb_eq in Hq as ->.
    destruct (scanstring s1) as [[key s2]|] eqn:Hkey; [|done].
    apply scanstring_sound in Hkey as (kb & -> & Hkb).
    destruct (skip_ws s2) as [|c2 s3] eqn:Hs2; [done|].
    apply skip_ws_cons in Hs2 as (w1 & Hw1 & ->).
    destruct (ch ":" c2) eqn:Hc2; [|done]. apply ch_true in Hc2 as ->.
    destruct (skip_ws_split s3) as (w2 & Hw2 & Hs3).
    destruct (scan_once k fuel limit (skip_ws s3)) as [v4 s4| |] eqn:Hv; [|done..].
    apply IHs in Hv as (pv & Hpv & Hval).
    destruct (skip_ws s4) as [|c5 s6] eqn:Hs4; [done|].
    apply skip_ws_cons in Hs4 as (w3 & Hw3 & ->).
    destruct (ch "}" c5) eqn:Hc5.
    { apply ch_true in Hc5 as ->. simplify_eq.
      exists (34%N :: kb ++ 34%N :: w1 ++ 58%N :: w2 ++ pv ++ w3 ++ [125%N]).
      split; [rewrite Hs3, Hpv; app_eq | by constructor]. }
    destruct (ch "," c5) eqn:Hc5'; [|done]. apply ch_true in Hc5' as ->.
    destruct (skip_ws_split s6) as (w4 & Hw4 & Hs6).
    apply IHm in H as (ms & Hms & Hmem).
    exists (34%N :: kb ++ 34%N :: w1 ++ 58%N :: w2 ++ pv ++ w3 ++ 44%N :: w4 ++ ms).
    split; [rewrite Hs3, Hpv, Hs6, Hms; app_eq | by constructor].
  - intros limit acc s v r H. simpl in H.
    destruct (scan_once k fuel limit s) as [v1 s1| |] eqn:Hv; [|done..].
    apply IHs in Hv as (pv & -> & Hval).
    destruct (skip_ws s1) as [|c s2] eqn:Hs1; [done|].
    apply skip_ws_cons in Hs1 as (w1 & Hw1 & ->).
    destruct (ch "]" c) eqn:Hc.
    { apply ch_true in Hc as ->. simplify_eq.
      exists (pv ++ w1 ++ [93%N]). split; [app_eq | by constructor]. }
    destruct (ch "," c) eqn:Hc'; [|done]. apply ch_true in Hc' as ->.
    destruct (skip_ws_split s2) as (w2 & Hw2 & Hs2).
    apply IHe in H as (es & Hes & Helem).
    exists (pv ++ w1 ++ 44%N :: w2 ++ es).
    split; [rewrite Hs2, Hes; app_eq | by constructor].
Qed.

(** A text [json.loads] decodes is a JSON text. *)
Lemma json_loads_sound limit s v : json_loads limit s = Returns v → json_text s.
Proof.
  unfold json_loads. intros H.
  destruct (scan_once _ _ _ _) as [v' r| |] eqn:Hscan; [|done..].
  destruct (skip_ws r) eqn:Hr; simplify_eq. apply skip_ws_nil in Hr.
  apply (proj1 (scan_sound _ _)) in Hscan as (p & Hp & Hval).
  destruct (skip_ws_split s) as (w1 & Hw1 & Hs).
  exists w1, p, r. split_and!; try done. by rewrite <-Hp.
Qed.

(** ** Why the decoder fails *)

Lemma errmsg_cases k limit :
  errmsg k limit = JSONDecodeError ∨ errmsg k limit = RecursionError ∧ limit < k.
Proof. unfold errmsg. case_decide; [by left | right; split; [done | lia]]. Qed.

Lemma count_open_suffix r s : r `suffix_of` s → count_open r ≤ count_open s.
Proof. intros [p ->]. unfold count_open, str. rewrite filter_app, length_app. lia. Qed.

Lemma count_open_open c s : c = 91%N ∨ c = 123%N → count_open (c :: s) = S (count_open s).
Proof. intros Hc. unfold count_open, str. by rewrite filter_cons_True. Qed.

Lemma digit_run_suffix n r s : r `suffix_of` s → digit_run n r → digit_run n s.
Proof.
  intros [q ->] (p & ds & r' & -> & Hds & Hlen). exists (q ++ p), ds, r'.
  split_and!; [app_eq | done..].
Qed.

Lemma scan_failure_errmsg k limit s : scan_failure k limit s (errmsg k limit).
Proof.
  destruct (errmsg_cases k limit) as [->|[-> Hlt]]; [by left|].
  right; left. split; [done | lia].
Qed.

Lemma scan_failure_suffix k limit r s e :
  r `suffix_of` s → scan_failure k limit r e → scan_failure k limit s e.
Proof.
  intros Hr [?|[[? Hlt]|[? Hrun]]]; [by left | right; left | right; right].
  - split; [done|]. apply count_open_suffix in Hr. lia.
  - split; [done|]. by eapply digit_run_suffix.
Qed.

(** Inside a bracket there is one level less, and one bracket less. *)
Lemma scan_failure_open k limit c r s e :
  c = 91%N ∨ c = 123%N → r `suffix_of` s →
  scan_failure k limit r e → scan_failure k (S limit) (c :: s) e.
Proof.
  intros Hc Hr [?|[[? Hlt]|[? Hrun]]]; [by left | right; left | right; right].
  - split; [done|]. rewrite count_open_open by done.
    apply count_open_suffix in Hr. lia.
  - split; [done|]. eapply digit_run_suffix; [|done]. by apply suffix_cons_r.
Qed.

Lemma match_number_fails s e :
  match_number s = Raises e →
  e = JSONDecodeError ∨ e = ValueError ∧ digit_run (S int_max_str_digits) s.
Proof.
  unfold match_number. intros H.
  assert (∀ c s2 ip r0,
            is_digit c = true →
            (if ch "0" c then ([c], s2)
             else let '(ds, r) := digits s2 in (c :: ds, r)) = (ip, r0) →
            c :: s2 = ip ++ r0 ∧ all_digits ip) as Hint.
  { intros c s2 ip r0 Hc Hip. destruct (ch "0" c) eqn:H0.
    - simplify_eq. split; [done | by repeat constructor].
    - destruct (digits_spec s2) as [Hs Hds]. destruct (digits s2) as [ds r'].
      simplify_eq/=. split; [by f_equal | by constructor]. }
  destruct s as [|c0 s0]; [by simplify_eq; left|].
  destruct (ch "-" c0) eqn:Hm.
  - destruct s0 as [|c s2]; [by simplify_eq; left|].
    destruct (is_digit c) eqn:Hc; [|by simplify_eq; left].
    destruct (if ch "0" c then _ else _) as [ip r0] eqn:Hip.
    apply Hint in Hip as [Hs Hip]; [|done].
    repeat case_match; simplify_eq. right. split; [done|].
    exists [c0], ip, r0. split_and!; [by rewrite Hs | done | lia].
  - destruct (is_digit c0) eqn:Hc; [|by simplify_eq; left].
    destruct (if ch "0" c0 then _ else _) as [ip r0] eqn:Hip.
    apply Hint in Hip as [Hs Hip]; [|done].
    repeat case_match; simplify_eq. right. split; [done|].
    exists [], ip, r0. split_and!; [by rewrite Hs | done | lia].
Qed.

(** Every failure of the scanner has one of the three causes. *)
Lemma scan_fails_why k fuel :
  (∀ limit s e, scan_once k fuel limit s = Fails e → scan_failure k limit s e) ∧
  (∀ limit acc s e, parse_members k fuel limit acc s = Fails e →
     scan_failure k limit s e) ∧
  (∀ limit acc s e, parse_elements k fuel limit acc s = Fails e →
     scan_failure k limit s e).
Proof.
  induction fuel as [|fuel (IHs & IHm & IHe)]; [by repeat split|].
  split; [|split].
  - intros limit s e H. simpl in H. destruct s as [|c s']; [simplify_eq; by left|].
    destruct (is_quote c).
    { destruct (scanstring s') as [[v0 r0]|]; simplify_eq. apply scan_failure_errmsg. }
    destruct (ch "{" c) eqn:Hc.
    { apply ch_true in Hc as ->.
      destruct limit as [|limit].
      { simplify_eq. right; left. split; [done|]. rewrite count_open_open by auto. lia. }
      pose proof (skip_ws_suffix s') as Hsuf.
      destruct (skip_ws s') as [|c1 s2].
      { simplify_eq. eapply (scan_failure_open _ _ _ []); [auto | apply suffix_nil |].
        apply scan_failure_errmsg. }
      destruct (ch "}" c1); [done|].
      apply IHm in H. by eapply scan_failure_open; [auto | |]. }
    destruct (ch "[" c) eqn:Hb.
    { apply ch_true in Hb as ->.
      destruct limit as [|limit].
      { simplify_eq. right; left. split; [done|]. rewrite count_open_open by auto. lia. }
      pose proof (skip_ws_suffix s') as Hsuf.
      destruct (skip_ws s') as [|c1 s2]; [simplify_eq; by left|].
      destruct (ch "]" c1); [done|].
      apply IHe in H. by eapply scan_failure_open; [auto | |]. }
    repeat (case_match; [done|]).
    apply scan_of_fails, match_number_fails in H as [->|[-> Hrun]]; [by left|].
    by right; right.
  - intros limit acc s e H. simpl in H.
    destruct s as [|c s1]; [simplify_eq; apply scan_failure_errmsg|].
    destruct (is_quote c); [|simplify_eq; apply scan_failure_errmsg].
    destruct (scanstring s1) as [[key s2]|] eqn:Hkey;
      [|simplify_eq; apply scan_failure_errmsg].
    apply scanstring_suffix in Hkey.
    pose proof (skip_ws_suffix s2) as Hs2.
    destruct (skip_ws s2) as [|c2 s3]; [simplify_eq; apply scan_failure_errmsg|].
    destruct (ch ":" c2); [|simplify_eq; apply scan_failure_errmsg].
    pose proof (skip_ws_suffix s3) as Hs3.
    assert (skip_ws s3 `suffix_of` c :: s1) as Hval.
    { apply suffix_cons_r. etrans; [|exact Hkey]. etrans; [|exact Hs2].
      apply suffix_cons_r. exact Hs3. }
    destruct (scan_once k fuel limit (skip_ws s3)) as [v4 s4| |] eqn:Hv; [| |done].
    2:{ simplify_eq. apply IHs in Hv. by eapply scan_failure_suffix. }
    apply (proj1 (scan_returns k fuel)) in Hv as [Hv%consumed_suffix _].
    pose proof (skip_ws_suffix s4) as Hs4.
    destruct (skip_ws s4) as [|c5 s6]; [simplify_eq; apply scan_failure_errmsg|].
    destruct (ch "}" c5); [done|].
    destruct (ch "," c5); [|simplify_eq; apply scan_failure_errmsg].
    apply IHm in H. eapply scan_failure_suffix; [|exact H].
    etrans; [apply skip_ws_suffix|]. etrans; [|exact Hval]. etrans; [|exact Hv].
    etrans; [|exact Hs4]. by apply suffix_cons_r.
  - intros limit acc s e H. simpl in H.
    destruct (scan_once k fuel limit s) as [v1 s1| |] eqn:Hv; [| |done].
    2:{ simplify_eq. by apply IHs in Hv. }
    apply (proj1 (scan_returns k fuel)) in Hv as [Hv%consumed_suffix _].
    pose proof (skip_ws_suffix s1) as Hs1.
    destruct (skip_ws s1) as [|c s2]; [simplify_eq; apply scan_failure_errmsg|].
    destruct (ch "]" c); [done|].
    destruct (ch "," c); [|simplify_eq; apply scan_failure_errmsg].
    apply IHe in H. eapply scan_failure_suffix; [|exact H].
    etrans; [apply skip_ws_suffix|]. etrans; [|exact Hv].
    etrans; [|exact Hs1]. by apply suffix_cons_r.
Qed.

(** Every exception of [json.loads] has one of the three causes. *)
Lemma json_loads_fails limit s e :
  json_loads limit s = Raises e →
  scan_failure (errmsg_levels limit) (levels limit) s e.
Proof.
  unfold json_loads. intros H.
  destruct (scan_once _ _ _ _) as [v r|e'|] eqn:Hscan.
  - destruct (skip_ws r); simplify_eq. by left.
  - simplify_eq. apply (proj1 (scan_fails_why _ _)) in Hscan.
    eapply scan_failure_suffix; [apply skip_ws_suffix | done].
  - exfalso. eapply (proj1 (scan_fed _ _)); [|exact Hscan].
    pose proof (suffix_length _ _ (skip_ws_suffix s)). lia.
Qed.

(** ** The normaliser *)

Example normalize_not_json :
  normalize usual_limit (cp "not json") = extraction_failed JSONDecodeError.
Proof. vm_compute. reflexivity. Qed.

Example normalize_fenced :
  normalize usual_limit (wrap_in_fence (dq "{'supplier':'Acme','tax':null}"))
  = (JObject [(cp "supplier", JString (cp "Acme")); (cp "tax", JNull)], []).
Proof. vm_compute. reflexivity. Qed.

Lemma cut_prefix_blank_head c w r :
  isspace c = true → cut_prefix (c :: w ++ r) = c :: w ++ r.
Proof.
  intros Hc. apply cut_prefix_other. rewrite fence_open_eq. intros H.
  apply prefix_cons_inv_1 in H. by apply isspace_backquote in Hc.
Qed.

Lemma cut_suffix_after_open w r :
  ∃ r', cut_suffix (w ++ fence_open ++ r) = w ++ fence_open ++ r'.
Proof.
  destruct (decide (fence_close `suffix_of` w ++ fence_open ++ r)) as [H|H].
  - apply suffix_app_short in H;
      [|rewrite fence_open_eq, fence_close_eq; simpl; lia].
    apply fence_close_after_open in H as [r' ->]. exists r'.
    rewrite !(assoc_L (++)). by rewrite cut_suffix_app.
  - exists r. by apply cut_suffix_other.
Qed.

(** With blanks in front of it the opening fence is not cut, and the text
    is refused by the decoder. *)
Lemma normalize_blank_before_fence limit w r :
  w ≠ [] → blank w →
  normalize limit (w ++ fence_open ++ r) = extraction_failed JSONDecodeError.
Proof.
  intros Hne Hw. unfold normalize, clean.
  destruct w as [|c w]; [done|].
  pose proof (Forall_inv Hw) as Hc. simpl in Hc.
  change ((c :: w) ++ fence_open ++ r) with (c :: w ++ fence_open ++ r).
  rewrite cut_prefix_blank_head by done.
  destruct (cut_suffix_after_open (c :: w) r) as [r' Hr'].
  change ((c :: w) ++ fence_open ++ r) with (c :: w ++ fence_open ++ r) in Hr'.
  rewrite Hr', (strip_blank_l (c :: w)) by done.
  rewrite fence_open_eq.
  change ([96; 96; 96; 106; 115; 111; 110]%N ++ r')
    with (96%N :: [96; 96; 106; 115; 111; 110]%N ++ r').
  destruct (strip_head 96%N ([96; 96; 106; 115; 111; 110]%N ++ r')) as [s' Hs'];
    [done|].
  rewrite Hs'. unfold parse_or_report. by rewrite json_loads_backquote.
Qed.

(** C2, as stated, fails: with a space before the fence the code reports a
    decoding error, where the five steps of the specification give the
    object. *)
Lemma C2_counterexample :
  normalize usual_limit spaced_fence = extraction_failed JSONDecodeError ∧
  spec_normalize usual_limit spaced_fence = (JObject [], []).
Proof. split; vm_compute; reflexivity. Qed.

(** C2 (amended): [normalize] cuts the opening fence if the text starts with
    it, then cuts the closing fence if the text ends with it, then trims,
    then parses; it does not trim before the prefix check.  It agrees with
    the five steps of the specification on a text that is trimmed first;
    a text with blanks before the opening fence keeps the fence and is
    reported as a decoding error. *)
Theorem C2_normalize_steps (limit : recursion) (t : str) :
  normalize limit t = parse_or_report limit (strip (cut_suffix (cut_prefix t))) ∧
  spec_normalize limit t = normalize limit (strip t) ∧
  (∀ w r, t = w ++ fence_open ++ r → w ≠ [] → blank w →
     normalize limit t = extraction_failed JSONDecodeError).
Proof.
  split_and!; [done..|].
  intros w r -> Hne Hw. by apply normalize_blank_before_fence.
Qed.

Lemma C2_normalize_steps_witness :
  normalize usual_limit spaced_fence = extraction_failed JSONDecodeError.
Proof.
  refine (proj2 (proj2 (C2_normalize_steps usual_limit spaced_fence))
            (cp " ") ([10%N] ++ cp "{}" ++ [10%N] ++ fence_close) _ _ _).
  - reflexivity.
  - discriminate.
  - repeat constructor.
Defined.

Lemma head_not_backquote_startswith c s :
  c ≠ 96%N → startswith (c :: s) fence_open = false.
Proof. intros H. rewrite fence_open_eq. by apply startswith_head_ne. Qed.

Lemma json_ws_not_backquote c : is_json_ws c = true → c ≠ 96%N.
Proof. intros H. by apply isspace_backquote, json_ws_isspace. Qed.

(** A JSON object text carries no fence of its own. *)
Lemma json_object_no_fence limit j d :
  json_loads limit j = Returns (JObject d) →
  cut_prefix j = j ∧ cut_suffix j = j.
Proof.
  intros (w1 & body & w2 & Hw1 & Hw2 & ->)%json_loads_object. split.
  - apply cut_prefix_other. intros H%startswith_true. revert H.
    destruct Hw1 as [|c w1 Hc _]; simpl.
    + by rewrite head_not_backquote_startswith.
    + by rewrite head_not_backquote_startswith by by apply json_ws_not_backquote.
  - apply cut_suffix_other. intros H%endswith_true. revert H.
    rewrite fence_close_eq.
    change [96; 96; 96]%N with ([96; 96]%N ++ [96%N]).
    destruct (decide (w2 = [])) as [->|Hne].
    + replace (w1 ++ 123%N :: body ++ [125%N])
        with ((w1 ++ 123%N :: body) ++ [125%N])
        by (by rewrite <-(assoc_L (++))).
      by rewrite endswith_last_ne.
    + destruct (exists_last Hne) as (w & c & ->).
      apply Forall_app in Hw2 as [_ Hc%Forall_inv]. simpl in Hc.
      replace (w1 ++ 123%N :: body ++ 125%N :: w ++ [c])
        with ((w1 ++ 123%N :: body ++ 125%N :: w) ++ [c])
        by (rewrite <-(assoc_L (++)); simpl; by rewrite <-(assoc_L (++))).
      by rewrite endswith_last_ne by by apply json_ws_not_backquote.
Qed.

Lemma clean_wrap_in_fence j : clean (wrap_in_fence j) = strip j.
Proof.
  unfold clean, wrap_in_fence. rewrite cut_prefix_app.
  rewrite !(assoc_L (++)), cut_suffix_app.
  rewrite strip_blank_r by (by repeat constructor).
  by rewrite strip_blank_l by (by repeat constructor).
Qed.

(** C3: for a valid JSON object text [j], normalising [j] and normalising
    [j] wrapped in the exact fence format give the same result. *)
Theorem C3_normalize_fenced (limit : recursion) (j : str) (d : dict) :
  json_loads limit j = Returns (JObject d) →
  normalize limit (wrap_in_fence j) = normalize limit j.
Proof.
  intros [Hp Hs]%json_object_no_fence. unfold normalize.
  rewrite clean_wrap_in_fence. unfold clean. by rewrite Hp, Hs.
Qed.

Lemma C3_normalize_fenced_witness :
  normalize usual_limit (wrap_in_fence (dq "{'tax': 1}")) = normalize usual_limit (dq "{'tax': 1}").
Proof.
  apply (C3_normalize_fenced _ _ [(cp "tax", JInt 1)]). vm_compute. reflexivity.
Defined.

(** [not json] is not a JSON text: no value starts with [no]. *)
Lemma not_json_refused : ¬ json_text (cp "not json").
Proof.
  intros (w1 & v & w2 & Hw1 & Hv & _ & Heq). vm_compute in Heq.
  destruct Hw1 as [|c w1 Hc _].
  2:{ simpl in Heq. injection Heq as <- _. discriminate Hc. }
  simpl in Heq. destruct Hv as [b _|n Hn|l Hl| | | |]; try discriminate Heq.
  - destruct Hn as [sign int frac exp [->| ->] Hint _ _]; [|discriminate Heq].
    destruct Hint as [->|(c & ds & -> & Hc & _)]; [discriminate Heq|].
    simpl in Heq. injection Heq as <- _. discriminate Hc.
  - apply list_elem_of_In in Hl. vm_compute in Hl.
    decompose [or] Hl; subst; try discriminate Heq; done.
Qed.

(** C4, as stated, fails: a JSON array and a bare JSON string are returned
    as they are, and nothing is reported. *)
Lemma C4_counterexample :
  normalize usual_limit (cp "[1]") = (JArray [JInt 1], []) ∧
  normalize usual_limit (dq "'paid'") = (JString (cp "paid"), []) ∧
  ∀ e, normalize usual_limit (cp "[1]") ≠ extraction_failed e ∧
       normalize usual_limit (dq "'paid'") ≠ extraction_failed e.
Proof.
  split_and!; [vm_compute; reflexivity..|].
  intros e. split; vm_compute; discriminate.
Qed.

(** C4 (amended): when the fence-stripped, trimmed text is not a JSON
    text (of RFC 8259, with Python's [NaN], [Infinity] and [-Infinity]),
    the decoder raises, and [normalize] returns [None] and reports the
    exception; it raises nothing itself.  Whatever the decoder raises is
    reported in this way, and it is a [JSONDecodeError], or a
    [RecursionError] on a text with more opening brackets than the
    interpreter has levels to spare, or the [ValueError] of an integer of
    more than [int_max_str_digits] digits.  A text that decodes is a JSON
    text, and its value is returned as decoded, whether or not it is an
    object. *)
Theorem C4_normalize_invalid (limit : recursion) (t : str) :
  (¬ json_text (clean t) →
     ∃ e, json_loads limit (clean t) = Raises e ∧
          normalize limit t = extraction_failed e) ∧
  (∀ e, json_loads limit (clean t) = Raises e →
     scan_failure (errmsg_levels limit) (levels limit) (clean t) e ∧
     normalize limit t = extraction_failed e) ∧
  (∀ v, json_loads limit (clean t) = Returns v →
     json_text (clean t) ∧ normalize limit t = (v, [])).
Proof.
  unfold normalize, parse_or_report. split_and!.
  - intros Hno. destruct (json_loads limit (clean t)) as [v|e] eqn:H.
    + by apply json_loads_sound in H.
    + by exists e.
  - intros e H. rewrite H. split; [by apply json_loads_fails | done].
  - intros v H. rewrite H. split; [by eapply json_loads_sound | done].
Qed.

Lemma C4_normalize_invalid_witness :
  (∃ e, json_loads usual_limit (cp "not json") = Raises e ∧
        normalize usual_limit (cp "not json") = extraction_failed e) ∧
  normalize usual_limit (cp "not json") = extraction_failed JSONDecodeError ∧
  normalize usual_limit (cp "[1]") = (JArray [JInt 1], []).
Proof.
  split_and!.
  - apply (proj1 (C4_normalize_invalid usual_limit (cp "not json"))).
    exact not_json_refused.
  - apply (proj1 (proj2 (C4_normalize_invalid usual_limit (cp "not json")))
             JSONDecodeError).
    vm_compute. reflexivity.
  - apply (proj2 (proj2 (C4_normalize_invalid usual_limit (cp "[1]")))).
    vm_compute. reflexivity.
Defined.

(** C10: the two fence checks do not depend on each other.  A closing fence
    is cut when there is no opening fence, an opening fence is cut when
    there is no closing fence, the suffix test answers the same before and
    after the prefix is cut, and the two cuts commute; the decoder is given
    the trimmed result. *)
Theorem C10_fence_checks_independent (limit : recursion) (t : str) :
  (startswith t fence_open = false → endswith t fence_close = true →
     normalize limit t = parse_or_report limit (strip (take (length t - 3) t))) ∧
  (startswith t fence_open = true → endswith t fence_close = false →
     normalize limit t = parse_or_report limit (strip (drop 7 t))) ∧
  endswith (cut_prefix t) fence_close = endswith t fence_close ∧
  cut_suffix (cut_prefix t) = cut_prefix (cut_suffix t).
Proof.
  split_and!.
  - intros Hp Hs. unfold normalize, clean, cut_suffix.
    rewrite endswith_cut_prefix, Hs. unfold cut_prefix. by rewrite Hp.
  - intros Hp Hs. unfold normalize, clean, cut_suffix.
    rewrite endswith_cut_prefix, Hs. unfold cut_prefix. by rewrite Hp.
  - apply endswith_cut_prefix.
  - apply cut_suffix_cut_prefix.
Qed.

Lemma C10_fence_checks_independent_witness :
  normalize usual_limit (cp "{}```") = (JObject [], []) ∧
  normalize usual_limit (cp "```json{}") = (JObject [], []).
Proof.
  split.
  - rewrite (proj1 (C10_fence_checks_independent usual_limit (cp "{}```")));
      vm_compute; reflexivity.
  - rewrite (proj1 (proj2 (C10_fence_checks_independent usual_limit (cp "```json{}"))));
      vm_compute; reflexivity.
Defined.

(** ** The store *)

Lemma next_rowid_above ids x : x ∈ ids → (x < next_rowid ids)%N.
Proof.
  unfold next_rowid. induction ids as [|y ids IH]; simpl.
  - by intros ?%elem_of_nil.
  - intros [->|Hx%IH]%elem_of_cons; lia.
Qed.

Lemma next_rowid_fresh ids : next_rowid ids ∉ ids.
Proof. intros H%next_rowid_above. lia. Qed.

Lemma next_rowid_pos ids : (0 < next_rowid ids)%N.
Proof. unfold next_rowid. lia. Qed.

Lemma filter_none {A} (P : A → Prop) `{∀ x, Decision (P x)} (l : list A) :
  Forall (λ x, ¬ P x) l → filter P l = [].
Proof.
  induction 1 as [|x l Hx _ IH]; [done|]. by rewrite filter_cons_False.
Qed.

Lemma filter_all {A} (P : A → Prop) `{∀ x, Decision (P x)} (l : list A) :
  Forall P l → filter P l = l.
Proof.
  induction 1 as [|x l Hx _ IH]; [done|]. by rewrite filter_cons_True, IH.
Qed.

Lemma headers_below_next db :
  Forall (λ h, InvoiceHeader.id h < next_rowid (InvoiceHeader.id <$> invoice_header db))%N
    (invoice_header db).
Proof.
  apply Forall_forall. intros h Hh. apply next_rowid_above.
  by apply list_elem_of_fmap_2.
Qed.

(** A SELECT by the key of the header just inserted finds that header. *)
Lemma select_inserted db row :
  InvoiceHeader.id row = next_rowid (InvoiceHeader.id <$> invoice_header db) →
  filter (λ h, InvoiceHeader.id h = InvoiceHeader.id row) (invoice_header db ++ [row])
  = [row].
Proof.
  intros Hid. rewrite filter_app, filter_none.
  - by rewrite filter_cons_True.
  - eapply Forall_impl; [apply headers_below_next|]. simpl. intros h Hlt. lia.
Qed.

Section StoreFacts.
Variable E : engine.
Variable now : N.

Lemma add_lines_run header_id items σ :
  match new_lines header_id items with
  | Returns lines =>
      add_lines header_id items σ
      = (Returns (), {| stored := stored σ; work := work σ; new := new σ ++ lines |})
  | Raises e =>
      ∃ σ', add_lines header_id items σ = (Raises e, σ') ∧ stored σ' = stored σ
  end.
Proof.
  revert σ. induction items as [|item rest IH]; intros σ; simpl.
  - rewrite (right_id_L [] (++)). by destruct σ.
  - unfold mbind, M_bind, lift. destruct (new_line header_id item) as [line|e]; simpl.
    + specialize (IH {| stored := stored σ; work := work σ; new := new σ ++ [line] |}).
      destruct (new_lines header_id rest) as [lines|e]; simpl in *.
      * rewrite IH. by rewrite <-(assoc_L (++)).
      * done.
    + by exists σ.
Qed.

Lemma new_header_shape extracted_data image_paths header :
  new_header extracted_data image_paths = Returns header →
  ∃ s i t x, header = NewHeader s i t x (join (cp ",") image_paths).
Proof.
  unfold new_header. destruct extracted_data; simpl; try done.
  intros [= <-]. eauto.
Qed.

Lemma new_line_is_new_line header_id item line :
  new_line header_id item = Returns line →
  is_new_line line ∧ ∃ d q u a, line = NewLine header_id d q u a.
Proof.
  unfold new_line. destruct item; simpl; try done.
  intros [= <-]. split; [done|]. eauto.
Qed.

Lemma new_lines_Forall2 header_id items lines :
  new_lines header_id items = Returns lines →
  Forall2 (λ item line, new_line header_id item = Returns line) items lines.
Proof.
  revert lines. induction items as [|item rest IH]; intros lines; simpl.
  - intros [= <-]. constructor.
  - destruct (new_line header_id item) as [line|] eqn:Hline; simpl; [|done].
    destruct (new_lines header_id rest) as [lines'|]; simpl; [|done].
    intros [= <-]. constructor; [done | by apply IH].
Qed.

Lemma new_lines_shape header_id items lines :
  new_lines header_id items = Returns lines →
  Forall (λ obj, ∃ d q u a, obj = NewLine header_id d q u a) lines.
Proof.
  intros H%new_lines_Forall2. eapply Forall2_Forall_r; [exact H|].
  apply Forall_forall. intros item _ line Hline.
  by apply new_line_is_new_line in Hline as [_ ?].
Qed.

Lemma new_lines_is_new_line header_id items lines :
  new_lines header_id items = Returns lines → Forall is_new_line lines.
Proof.
  intros H%new_lines_shape. eapply Forall_impl; [exact H|].
  by intros obj (d & q & u & a & ->).
Qed.

(** A list of objects gives one line object per item. *)
Lemma new_lines_objects header_id items :
  Forall (λ item, ∃ o, item = JObject o) items →
  ∃ lines, new_lines header_id items = Returns lines.
Proof.
  induction 1 as [|item rest [o ->] _ [lines IH]]; simpl; [eauto|].
  rewrite IH. simpl. eauto.
Qed.

(** Inserting line objects leaves the headers alone and appends one row
    per object, in order. *)
Lemma insert_all_lines lines db keys db' :
  Forall is_new_line lines →
  insert_all E now db lines = Returns (keys, db') →
  invoice_header db' = invoice_header db ∧
  ∃ rows, invoice_line_items db' = invoice_line_items db ++ rows ∧
          Forall2 line_row lines rows.
Proof.
  intros Hlines. revert db keys db'.
  induction Hlines as [|line lines Hline _ IH]; intros db keys db'; simpl.
  - intros [= <- <-]. split; [done|]. exists []. by rewrite (right_id_L [] (++)).
  - destruct line as [|hid d q u a]; [done|]. simpl.
    destruct (insert_line_fails E db _); simpl; [done|].
    destruct (insert_all _ _ _ lines) as [[ks db2]|] eqn:Hrest; simpl; [|done].
    intros [= <- <-]. apply IH in Hrest as (Hh & rows & Hl & Hrows). simpl in *.
    split; [done|]. eexists (_ :: rows). split.
    + rewrite Hl, <-(assoc_L (++)). reflexivity.
    + by constructor.
Qed.

Lemma insert_all_accepted lines db :
  Forall is_new_line lines →
  (∀ db row, insert_line_fails E db row = false) →
  ∃ r, insert_all E now db lines = Returns r.
Proof.
  intros Hlines Hok. revert db.
  induction Hlines as [|line lines Hline _ IH]; intros db; simpl; [eauto|].
  destruct line as [|hid d q u a]; [done|]. simpl. rewrite Hok. simpl.
  edestruct IH as [[ks db'] ->]. simpl. eauto.
Qed.

(** [save_invoice_to_db], step by step. *)
Lemma save_invoice_to_db_unfold db extracted_data image_paths :
  save_invoice_to_db E now db extracted_data image_paths =
  match new_header extracted_data image_paths with
  | Raises e => save_failed e db
  | Returns header =>
      match insert E now db header with
      | Raises e => save_failed e db
      | Returns (header_id, db1) =>
          match py_get extracted_data (cp "line_items") (JArray []) ≫= py_iter with
          | Raises e => save_failed e db
          | Returns items =>
              match new_lines header_id items with
              | Raises e => save_failed e db
              | Returns lines =>
                  match insert_all E now db1 lines with
                  | Raises e => save_failed e db
                  | Returns (_, db2) =>
                      if commit_fails E db2 then save_failed DBAPIError db
                      else if select_fails E db2 header_id
                      then save_failed DBAPIError db2
                      else (Returns (Some header_id, []), db2)
                  end
              end
          end
      end
  end.
Proof.
  unfold save_invoice_to_db, save_invoice_body, try_finally, try_except, save_failed.
  unfold mbind at 1 2. unfold M_bind at 1 2. unfold lift at 1. simpl.
  destruct (new_header _ _) as [header|e] eqn:Hheader; [|done]. simpl.
  apply new_header_shape in Hheader as (s & i & t & x & ->).
  unfold mbind at 1. unfold M_bind at 1. unfold session_flush at 1. simpl.
  destruct (insert_header_fails E db _); [done|]. simpl.
  set (header_id := next_rowid (InvoiceHeader.id <$> invoice_header db)).
  set (row := InvoiceHeader.Build_t header_id s i t x (join (cp ",") image_paths) now).
  set (db1 := {| invoice_header := invoice_header db ++ [row];
                 invoice_line_items := invoice_line_items db |}).
  unfold mbind at 1 2. unfold M_bind at 1 2. unfold lift at 1 2. simpl.
  destruct (py_get _ _ _) as [line_items|e]; [|done]. simpl.
  destruct (py_iter line_items) as [items|e]; [|done].
  unfold mbind at 1. unfold M_bind at 1.
  pose proof (add_lines_run header_id items
                {| stored := db; work := db1; new := [] |}) as Hrun.
  destruct (new_lines header_id items) as [lines|e] eqn:Hlines.
  - rewrite Hrun. simpl.
    unfold mbind at 1. unfold M_bind at 1. unfold session_commit.
    unfold mbind at 1. unfold M_bind at 1. unfold session_flush. simpl.
    destruct (insert_all E now db1 lines) as [[keys db2]|e] eqn:Hall; [|done].
    unfold sql_commit. simpl. destruct (commit_fails E db2); [done|].
    unfold mbind, M_bind, refreshed_id. simpl.
    destruct (select_fails E db2 header_id); [done|].
    apply insert_all_lines in Hall as [Hh _];
      [|by eapply new_lines_is_new_line].
    pose proof (select_inserted db row eq_refl) as Hsel.
    cbn [InvoiceHeader.id row] in Hsel. rewrite Hh. unfold db1. cbn [invoice_header].
    by rewrite Hsel.
  - destruct Hrun as (σ' & -> & Hσ'). simpl in *. by rewrite Hσ'.
Qed.

(** What the INSERTs of one call leave in the open transaction. *)
Lemma rows_written db extracted_data image_paths s i t x items lines keys db2 :
  let row := InvoiceHeader.Build_t (next_rowid (InvoiceHeader.id <$> invoice_header db))
               s i t x (join (cp ",") image_paths) now in
  new_header extracted_data image_paths
  = Returns (NewHeader s i t x (join (cp ",") image_paths)) →
  py_get extracted_data (cp "line_items") (JArray []) ≫= py_iter = Returns items →
  new_lines (InvoiceHeader.id row) items = Returns lines →
  insert_all E now {| invoice_header := invoice_header db ++ [row];
                      invoice_line_items := invoice_line_items db |} lines
  = Returns (keys, db2) →
  ∃ rows, db2 = appended db row rows ∧
          rows_of_call now db extracted_data image_paths items row rows.
Proof.
  intros row Hheader Hitems Hlines Hins.
  apply insert_all_lines in Hins as (Hh & rows & Hl & Hrows);
    [|by eapply new_lines_is_new_line].
  apply new_lines_Forall2 in Hlines.
  destruct db2 as [hs ls]. simpl in Hh, Hl. subst hs ls.
  exists rows. split; [done|]. unfold rows_of_call. split_and!; try done.
  eapply Forall2_trans; [|exact Hlines|exact Hrows].
  intros item line r Hline Hrow. red in Hrow. subst line.
  apply new_line_is_new_line in Hline as Hshape.
  destruct Hshape as [_ (d & q & u & a & [= Hid _ _ _ _])].
  split; [done|]. by rewrite Hline, Hid.
Qed.

(** Every way a call can end: nothing is committed and a failure is
    reported; or the rows are committed, and then the id is returned, or,
    when the SELECT after the COMMIT is refused, a failure is reported. *)
Lemma save_outcome db extracted_data image_paths :
  (∃ e, save_invoice_to_db E now db extracted_data image_paths = save_failed e db)
  ∨ (∃ items h rows,
       rows_of_call now db extracted_data image_paths items h rows ∧
       save_invoice_to_db E now db extracted_data image_paths
       = if select_fails E (appended db h rows) (InvoiceHeader.id h)
         then save_failed DBAPIError (appended db h rows)
         else (Returns (Some (InvoiceHeader.id h), []), appended db h rows)).
Proof.
  rewrite save_invoice_to_db_unfold.
  destruct (new_header _ _) as [header|e] eqn:Hheader; [|eauto].
  pose proof Hheader as (s & i & t & x & ->)%new_header_shape.
  cbn [insert]. destruct (insert_header_fails E db _); [eauto|].
  destruct (_ ≫= py_iter) as [items|e] eqn:Hitems; [|eauto].
  destruct (new_lines _ items) as [lines|e] eqn:Hlines; [|eauto].
  destruct (insert_all _ _ _ lines) as [[keys db2]|e] eqn:Hins; [|eauto].
  destruct (commit_fails E db2); [eauto|]. right.
  destruct (rows_written _ _ _ _ _ _ _ _ _ _ _ Hheader Hitems Hlines Hins)
    as (rows & -> & Hrows).
  by eexists items, _, rows.
Qed.

(** With data of the expected shape and an engine that accepts the writes,
    the rows are committed, and the SELECT after the COMMIT alone decides
    what is returned. *)
Lemma save_accepted db extracted_data image_paths items :
  invoice_shaped extracted_data items →
  accepts_writes E →
  ∃ h rows,
    rows_of_call now db extracted_data image_paths items h rows ∧
    save_invoice_to_db E now db extracted_data image_paths
    = if select_fails E (appended db h rows) (InvoiceHeader.id h)
      then save_failed DBAPIError (appended db h rows)
      else (Returns (Some (InvoiceHeader.id h), []), appended db h rows).
Proof.
  intros (d & -> & Hitems & Hobjects) (Hheader & Hline & Hcommit).
  assert (py_get (JObject d) (cp "line_items") (JArray []) ≫= py_iter = Returns items)
    as Hiter by (simpl; by rewrite Hitems).
  assert (∃ s i t x, new_header (JObject d) image_paths
                     = Returns (NewHeader s i t x (join (cp ",") image_paths)))
    as (s & i & t & x & Hnew) by (unfold new_header; simpl; eauto).
  set (row := InvoiceHeader.Build_t (next_rowid (InvoiceHeader.id <$> invoice_header db))
                s i t x (join (cp ",") image_paths) now).
  destruct (new_lines_objects (InvoiceHeader.id row) items Hobjects) as [lines Hlines].
  destruct (insert_all_accepted lines
              {| invoice_header := invoice_header db ++ [row];
                 invoice_line_items := invoice_line_items db |})
    as [[keys db2] Hins]; [by eapply new_lines_is_new_line | done |].
  destruct (rows_written _ _ _ _ _ _ _ _ _ _ _ Hnew Hiter Hlines Hins)
    as (rows & -> & Hrows).
  exists row, rows. split; [done|].
  rewrite save_invoice_to_db_unfold, Hnew. cbn [insert]. rewrite Hheader, Hiter.
  fold row. change (next_rowid (InvoiceHeader.id <$> invoice_header db))
    with (InvoiceHeader.id row).
  rewrite Hlines, Hins, Hcommit. reflexivity.
Qed.

(** C1: what [save_invoice_to_db] leaves.  Up to and including the COMMIT
    it is all or nothing: whatever fails and whenever (the data is not an
    object, a line cannot be built or an INSERT is refused after the header
    was inserted, the COMMIT is refused), it reports the failure, returns
    [None], and the database is as it was; and with data of the expected
    shape and nothing refused it commits one header row, whose
    [image_paths] is the comma-join of the locators, and one line row per
    item of [line_items], all referring to the header, and returns the
    header's id.  But the id is read back after the COMMIT, inside the
    [try]: when that SELECT is refused, the function reports a failed save
    and returns [None] although the header and its lines are committed. *)
Theorem C1_save_invoice_atomic db extracted_data image_paths :
  ((∃ e, save_invoice_to_db E now db extracted_data image_paths = save_failed e db)
   ∨ (∃ items h rows,
        rows_of_call now db extracted_data image_paths items h rows ∧
        ((select_fails E (appended db h rows) (InvoiceHeader.id h) = false ∧
          save_invoice_to_db E now db extracted_data image_paths
          = (Returns (Some (InvoiceHeader.id h), []), appended db h rows))
         ∨ (select_fails E (appended db h rows) (InvoiceHeader.id h) = true ∧
            save_invoice_to_db E now db extracted_data image_paths
            = save_failed DBAPIError (appended db h rows)))))
  ∧ (∀ items,
       invoice_shaped extracted_data items → accepts_writes E →
       (∀ db' key, select_fails E db' key = false) →
       ∃ h rows,
         rows_of_call now db extracted_data image_paths items h rows ∧
         save_invoice_to_db E now db extracted_data image_paths
         = (Returns (Some (InvoiceHeader.id h), []), appended db h rows))
  ∧ (∀ header header_id db1 e,
       new_header extracted_data image_paths = Returns header →
       insert E now db header = Returns (header_id, db1) →
       (py_get extracted_data (cp "line_items") (JArray []) ≫= py_iter)
         ≫= new_lines header_id = Raises e
       ∨ (∃ lines,
            (py_get extracted_data (cp "line_items") (JArray []) ≫= py_iter)
              ≫= new_lines header_id = Returns lines ∧
            insert_all E now db1 lines = Raises e) →
       save_invoice_to_db E now db extracted_data image_paths = save_failed e db)
  ∧ (∀ items,
       invoice_shaped extracted_data items → accepts_writes E →
       (∀ db' key, select_fails E db' key = true) →
       ∃ h rows,
         rows_of_call now db extracted_data image_paths items h rows ∧
         save_invoice_to_db E now db extracted_data image_paths
         = save_failed DBAPIError (appended db h rows) ∧
         appended db h rows ≠ db).
Proof.
  split_and!.
  - destruct (save_outcome db extracted_data image_paths)
      as [?|(items & h & rows & Hrows & Hrun)]; [by left|].
    right. exists items, h, rows. split; [done|].
    destruct (select_fails E _ _); [right | left]; done.
  - intros items Hshape Hwrites Hselect.
    destruct (save_accepted db extracted_data image_paths items Hshape Hwrites)
      as (h & rows & Hrows & Hrun).
    rewrite Hselect in Hrun. by exists h, rows.
  - rewrite save_invoice_to_db_unfold.
    intros header header_id db1 e -> -> Hfail.
    destruct (_ ≫= py_iter) as [items|e'] eqn:Hitems; simpl in Hfail.
    + destruct Hfail as [Hfail|(lines & Hlines & Hfail)].
      * by rewrite Hfail.
      * by rewrite Hlines, Hfail.
    + by destruct Hfail as [[= ->]|(lines & [=] & _)].
  - intros items Hshape Hwrites Hselect.
    destruct (save_accepted db extracted_data image_paths items Hshape Hwrites)
      as (h & rows & Hrows & Hrun).
    rewrite Hselect in Hrun. exists h, rows. split_and!; [done..|].
    intros Heq%(f_equal (λ d, length (invoice_header d))).
    simpl in Heq. rewrite length_app in Heq. simpl in Heq. lia.
Qed.



End StoreFacts.

Example save_acme :
  let data := (normalize usual_limit (wrap_in_fence acme)).1 in
  save_invoice_to_db sound_engine 7 empty_db data [cp "uploaded_images/a.png"]
  = (Returns (Some 1%N, []),
     {| invoice_header :=
          [InvoiceHeader.Build_t 1 (JString (cp "Acme")) (JString (cp "2024-01-05"))
             (JFloat (cp "120.5")) JNull (cp "uploaded_images/a.png") 7];
        invoice_line_items :=
          [InvoiceLineItem.Build_t 1 1 (JString (cp "Widget")) (JInt 2)
             (JFloat (cp "60.25")) (JFloat (cp "120.5"))] |}).
Proof. vm_compute. reflexivity. Qed.

(** A line item that is not an object: the header was inserted, the loop
    raises, nothing is left. *)
Example save_bad_item :
  save_invoice_to_db sound_engine 7 empty_db (JObject [(cp "line_items", JArray [JInt 1])]) []
  = save_failed AttributeError empty_db.
Proof. vm_compute. reflexivity. Qed.

Example save_null_items :
  save_invoice_to_db sound_engine 7 empty_db (JObject [(cp "line_items", JNull)]) []
  = save_failed TypeError empty_db.
Proof. vm_compute. reflexivity. Qed.

Example save_array :
  save_invoice_to_db sound_engine 7 empty_db (JArray [JInt 1]) []
  = save_failed AttributeError empty_db.
Proof. vm_compute. reflexivity. Qed.

(** The SELECT after the COMMIT is refused: the save is reported as
    failed, and the rows are there. *)
Example save_select_refused :
  save_invoice_to_db late_engine 7 empty_db widget_invoice [cp "uploaded_images/a.png"]
  = (Returns (None, [st_error (cp "Database save failed") DBAPIError]),
     {| invoice_header :=
          [InvoiceHeader.Build_t 1 (JString (cp "Acme")) JNull JNull JNull
             (cp "uploaded_images/a.png") 7];
        invoice_line_items :=
          [InvoiceLineItem.Build_t 1 1 (JString (cp "Widget")) JNull JNull JNull] |}).
Proof. vm_compute. reflexivity. Qed.

Lemma C1_save_invoice_atomic_witness :
  ∃ h rows,
    rows_of_call 7 empty_db widget_invoice [cp "uploaded_images/a.png"]
      [JObject [(cp "description", JString (cp "Widget"))]] h rows ∧
    save_invoice_to_db late_engine 7 empty_db widget_invoice [cp "uploaded_images/a.png"]
    = save_failed DBAPIError (appended empty_db h rows) ∧
    appended empty_db h rows ≠ empty_db.
Proof.
  apply (proj2 (proj2 (proj2 (C1_save_invoice_atomic late_engine 7 empty_db
                                widget_invoice [cp "uploaded_images/a.png"])))).
  - eexists. split; [reflexivity|]. split; [reflexivity|].
    constructor; [by eexists | constructor].
  - by split_and!.
  - done.
Defined.


(** ** Reading back *)

Section OrderBy.
Context {A : Type} (key : A → N).

Lemma insert_desc_perm x l : insert_desc key x l ≡ₚ x :: l.
Proof.
  induction l as [|y l IH]; simpl; [done|].
  destruct (key x <? key y)%N; [|done].
  rewrite IH. apply Permutation_swap.
Qed.

Lemma order_by_desc_perm l : order_by_desc key l ≡ₚ l.
Proof.
  induction l as [|x l IH]; simpl; [done|].
  by rewrite insert_desc_perm, IH.
Qed.

Lemma insert_desc_sorted x l :
  StronglySorted (newer_first key) l → StronglySorted (newer_first key) (insert_desc key x l).
Proof.
  induction 1 as [|y l Hl IH Hy]; simpl.
  - by repeat constructor.
  - destruct (key x <? key y)%N eqn:Hxy.
    + apply N.ltb_lt in Hxy. constructor; [done|].
      rewrite insert_desc_perm. constructor; [|done].
      unfold newer_first. lia.
    + apply N.ltb_ge in Hxy. constructor; [by constructor|].
      constructor; [done|].
      eapply Forall_impl; [exact Hy|]. unfold newer_first. intros z Hz. lia.
Qed.

Lemma order_by_desc_sorted l : StronglySorted (newer_first key) (order_by_desc key l).
Proof.
  induction l as [|x l IH]; simpl; [constructor | by apply insert_desc_sorted].
Qed.

(** Rows with the same key keep the order of the table. *)
Lemma insert_desc_stable t x l :
  filter (λ a, key a = t) (insert_desc key x l) = filter (λ a, key a = t) (x :: l).
Proof.
  induction l as [|y l IH]; simpl; [done|].
  destruct (key x <? key y)%N eqn:Hxy; [|done].
  apply N.ltb_lt in Hxy.
  rewrite (filter_cons _ y), IH, !(filter_cons _ x), !(filter_cons _ y).
  repeat case_decide; try done. lia.
Qed.

Lemma order_by_desc_stable t l :
  filter (λ a, key a = t) (order_by_desc key l) = filter (λ a, key a = t) l.
Proof.
  induction l as [|x l IH]; simpl; [done|].
  by rewrite insert_desc_stable, !(filter_cons _ x), IH.
Qed.

Lemma insert_desc_oldest x l :
  Forall (λ y, key x < key y)%N l → insert_desc key x l = l ++ [x].
Proof.
  induction 1 as [|y l Hy _ IH]; simpl; [done|].
  apply N.ltb_lt in Hy. by rewrite Hy, IH.
Qed.

(** A table filled in the order of time comes back reversed. *)
Lemma order_by_desc_increasing l :
  StronglySorted (λ a b, key a < key b)%N l → order_by_desc key l = reverse l.
Proof.
  induction 1 as [|x l _ IH Hx]; simpl; [done|].
  rewrite IH, reverse_cons. apply insert_desc_oldest.
  by apply Forall_reverse.
Qed.
End OrderBy.

Lemma get_all_invoices_columns db :
  columns <$> get_all_invoices db
  = order_by_desc InvoiceHeader.created_at (invoice_header db).
Proof.
  unfold get_all_invoices. rewrite <-!list_fmap_compose.
  rewrite <-(list_fmap_id (order_by_desc _ _)) at 2. by apply list_fmap_ext.
Qed.

(** C6: [get_all_invoices] returns every header row, most recent first;
    rows created at the same time stay in insertion order; headers created
    at [T1 < T2 < T3] come back as [T3, T2, T1]. *)
Theorem C6_list_invoices_order (db : database) :
  let result := columns <$> get_all_invoices db in
  result ≡ₚ invoice_header db ∧
  StronglySorted (newer_first InvoiceHeader.created_at) result ∧
  (∀ t, filter (λ h, InvoiceHeader.created_at h = t) result
        = filter (λ h, InvoiceHeader.created_at h = t) (invoice_header db)) ∧
  (∀ h1 h2 h3,
     invoice_header db = [h1; h2; h3] →
     (InvoiceHeader.created_at h1 < InvoiceHeader.created_at h2)%N →
     (InvoiceHeader.created_at h2 < InvoiceHeader.created_at h3)%N →
     result = [h3; h2; h1]).
Proof.
  simpl. rewrite get_all_invoices_columns. split_and!.
  - apply order_by_desc_perm.
  - apply order_by_desc_sorted.
  - intros t. apply order_by_desc_stable.
  - intros h1 h2 h3 -> H12 H23.
    rewrite order_by_desc_increasing; [done|].
    repeat constructor; lia.
Qed.

Lemma C6_list_invoices_order_witness :
  columns <$> get_all_invoices three_headers
  = [header_at 3 30; header_at 2 20; header_at 1 10].
Proof.
  apply (proj2 (proj2 (proj2 (C6_list_invoices_order three_headers))) _ _ _ eq_refl);
    reflexivity.
Defined.

Example list_invoices_ties :
  columns <$> get_all_invoices
    {| invoice_header := [header_at 1 10; header_at 2 30; header_at 3 10; header_at 4 30];
       invoice_line_items := [] |}
  = [header_at 2 30; header_at 4 30; header_at 1 10; header_at 3 10].
Proof. reflexivity. Qed.

(** While the session is open, [line_items] is fetched on access. *)
Example line_items_in_session :
  line_items one_invoice (loaded (header_at 1 10))
  = Returns [InvoiceLineItem.Build_t 1 1 JNull JNull JNull JNull].
Proof. reflexivity. Qed.

(** C7: for an id no header has, [get_invoice_detail] returns [None]; for
    an id some header has, it returns that header's columns.  The object is
    returned after [session.close()], with [line_items] never fetched: the
    line items are not part of what is returned, and reading them raises
    [DetachedInstanceError]. *)
Theorem C7_get_invoice_detail (db : database) (invoice_id : N) :
  match get_invoice_detail db invoice_id with
  | None => ∀ h, h ∈ invoice_header db → InvoiceHeader.id h ≠ invoice_id
  | Some o =>
      columns o ∈ invoice_header db ∧
      InvoiceHeader.id (columns o) = invoice_id ∧
      line_items db o = Raises DetachedInstanceError
  end.
Proof.
  unfold get_invoice_detail.
  destruct (filter _ (invoice_header db)) as [|h l] eqn:Hf; simpl.
  - intros h Hh Hid. by apply (filter_nil_not_elem_of _ _ h Hf Hid).
  - assert (h ∈ filter (λ h, InvoiceHeader.id h = invoice_id) (invoice_header db))
      as [Hid Hh]%list_elem_of_filter by (rewrite Hf; left).
    done.
Qed.

Example get_invoice_detail_line_items :
  (get_invoice_detail one_invoice 1 ≫= λ invoice, Some (line_items one_invoice invoice))
  = Some (Raises DetachedInstanceError).
Proof. reflexivity. Qed.

Example get_invoice_detail_missing : get_invoice_detail one_invoice 2 = None.
Proof. reflexivity. Qed.

(** ** Image paths *)

Lemma split_from_app sep cur x rest :
  sep ∉ x → split_from sep cur (x ++ rest) = split_from sep (cur ++ x) rest.
Proof.
  revert cur. induction x as [|c x IH]; intros cur Hx; simpl.
  - by rewrite (right_id_L [] (++)).
  - apply not_elem_of_cons in Hx as [Hc Hx].
    rewrite (proj2 (N.eqb_neq c sep)) by done.
    rewrite IH by done. by rewrite <-(assoc_L (++)).
Qed.

Lemma split_from_sep sep cur s :
  split_from sep cur (sep :: s) = cur :: split_from sep [] s.
Proof. simpl. by rewrite N.eqb_refl. Qed.

(** Splitting recovers the locators, unless one of them holds a comma (or
    there is none). *)
Lemma split_join (locators : list str) :
  locators ≠ [] → Forall (λ p, 44%N ∉ p) locators →
  split 44 (join [44%N] locators) = locators.
Proof.
  intros Hne Hl. unfold split.
  induction Hl as [|x l Hx Hl IH]; [done|]. clear Hne.
  destruct l as [|y l].
  - simpl. rewrite <-(right_id_L [] (++) x), split_from_app by done.
    by rewrite (right_id_L [] (++)).
  - change (join [44%N] (x :: y :: l)) with (x ++ [44%N] ++ join [44%N] (y :: l)).
    rewrite split_from_app by done.
    change ([44%N] ++ join [44%N] (y :: l)) with (44%N :: join [44%N] (y :: l)).
    rewrite split_from_sep. by rewrite IH.
Qed.

(** C9: the column is the comma-join of the locators, but a locator that
    holds a comma is stored all the same, and the detail page then reads
    two paths where there was one. *)
Theorem C9_comma_in_locator :
  ∃ h, save_invoice_to_db sound_engine 7 empty_db (JObject []) [comma_locator]
       = (Returns (Some 1%N, []),
          {| invoice_header := [h]; invoice_line_items := [] |}) ∧
       InvoiceHeader.image_paths h = join (cp ",") [comma_locator] ∧
       locator {| name := cp "a,b.png"; getbuffer := [] |} = comma_locator ∧
       44%N ∈ comma_locator ∧
       shown_paths (loaded h) = [cp "uploaded_images/a"; cp "b.png"] ∧
       shown_paths (loaded h) ≠ [comma_locator].
Proof.
  eexists. split_and!;
    [vm_compute; reflexivity | reflexivity | reflexivity | | reflexivity | discriminate].
  unfold comma_locator. apply list_elem_of_In. vm_compute. tauto.
Qed.

(** ** Image intake *)

Section IntakeFacts.
Variable os : os_faults.

Lemma save_each_returns fs paths uploaded_files ps fs' :
  save_each os fs paths uploaded_files = Returns (ps, fs') →
  ps = paths ++ (locator <$> uploaded_files) ∧
  dirs fs' = dirs fs ∧
  files fs' = written (files fs) uploaded_files.
Proof.
  revert fs paths. induction uploaded_files as [|file rest IH]; intros fs paths; simpl.
  - intros [= <- <-]. by rewrite (right_id_L [] (++)).
  - unfold write_file. destruct (open_fails os fs _); simpl; [done|].
    intros (-> & Hd & Hf)%IH. by rewrite <-(assoc_L (++)).
Qed.

Lemma save_each_total fs paths uploaded_files :
  (∀ fs' p, open_fails os fs' p = false) →
  ∃ r, save_each os fs paths uploaded_files = Returns r.
Proof.
  intros Hok. revert fs paths.
  induction uploaded_files as [|file rest IH]; intros fs paths; simpl; [eauto|].
  unfold write_file. rewrite Hok. simpl. apply IH.
Qed.




Lemma save_uploaded_images_returns fs uploaded_files paths fs' :
  save_uploaded_images os fs uploaded_files = Returns (paths, fs') →
  paths = locator <$> uploaded_files ∧
  dirs fs' = {[upload_dir]} ∪ dirs fs ∧
  files fs' = written (files fs) uploaded_files.
Proof.
  unfold save_uploaded_images, makedirs.
  destruct (makedirs_fails os fs upload_dir); simpl; [done|].
  by intros (-> & -> & ->)%save_each_returns.
Qed.

Lemma save_uploaded_images_total fs uploaded_files :
  makedirs_fails os fs upload_dir = false →
  (∀ fs' p, open_fails os fs' p = false) →
  ∃ fs', save_uploaded_images os fs uploaded_files
         = Returns (locator <$> uploaded_files, fs').
Proof.
  intros Hmk Hopen. unfold save_uploaded_images, makedirs. rewrite Hmk. simpl.
  destruct (save_each_total
              {| dirs := {[upload_dir]} ∪ dirs fs; files := files fs |} []
              uploaded_files Hopen) as [[ps fs'] Hr].
  exists fs'. rewrite Hr. by apply save_each_returns in Hr as (-> & _ & _).
Qed.



End IntakeFacts.



Example save_uploaded_images_paths :
  match save_uploaded_images no_faults empty_fs two_uploads with
  | Returns (paths, _) => paths = [cp "uploaded_images/a.png"; cp "uploaded_images/b.png"]
  | Raises _ => False
  end.
Proof. reflexivity. Qed.

(** An absolute name leaves the storage directory, as [os.path.join] has
    it. *)
Example locator_absolute :
  locator {| name := cp "/tmp/x.png"; getbuffer := [] |} = cp "/tmp/x.png".
Proof. reflexivity. Qed.

(** * Further properties *)

(** ** What a JSON text ends with *)

Lemma closes_of_suffix c s r : c ≠ 96%N → c :: r `suffix_of` s → closes s r.
Proof. intros Hc [p ->]. by exists p, c. Qed.

Lemma closes_suffix_l s s' r : closes s r → s `suffix_of` s' → closes s' r.
Proof.
  intros (p & c & -> & Hc) [q ->]. exists (q ++ p), c.
  by rewrite <-(assoc_L (++)).
Qed.

Lemma closes_trans s r r' : closes s r → closes r r' → closes s r'.
Proof.
  intros (p & c & -> & _) (p' & c' & -> & Hc'). exists (p ++ c :: p'), c'.
  by rewrite <-(assoc_L (++)).
Qed.

Lemma is_digit_not_backquote c : is_digit c = true → c ≠ 96%N.
Proof. intros H ->. discriminate H. Qed.

Lemma digits_closes c s : is_digit c = true → closes (c :: s) (digits s).2.
Proof.
  revert c. induction s as [|c' s IH]; intros c Hc; simpl.
  - apply (closes_of_suffix c); [by apply is_digit_not_backquote | done].
  - destruct (is_digit c') eqn:Hc'.
    + specialize (IH c' Hc'). destruct (digits s) as [ds r]. simpl in *.
      eapply closes_suffix_l; [exact IH | by apply suffix_cons_r].
    + apply (closes_of_suffix c); [by apply is_digit_not_backquote | done].
Qed.

Lemma after_fraction_closes s r : after_fraction s = Some r → closes s r.
Proof.
  unfold after_fraction. intros H.
  destruct s as [|p [|d s']]; [done..|].
  destruct (ch "." p && is_digit d) eqn:Hpd; simplify_eq.
  apply andb_true_iff in Hpd as [_ Hd].
  eapply closes_suffix_l; [by apply digits_closes | by apply suffix_cons_r].
Qed.

Lemma after_exponent_closes s r : after_exponent s = Some r → closes s r.
Proof.
  unfold after_exponent. intros H.
  destruct s as [|e s1]; [done|]. destruct (ch "e" e || ch "E" e); [|done].
  assert (∀ s2, s2 `suffix_of` s1 →
                match digits s2 with ([], _) => None | (_ :: _, r) => Some r end = Some r →
                closes (e :: s1) r) as Hgo.
  { intros s2 Hs2 Hd. destruct s2 as [|c s2']; [done|]. simpl in Hd.
    destruct (is_digit c) eqn:Hc; [|done].
    pose proof (digits_closes c s2' Hc) as Hcl.
    destruct (digits s2') as [ds r']. simplify_eq/=.
    eapply closes_suffix_l; [exact Hcl | by apply suffix_cons_r]. }
  destruct s1 as [|sg s2]; [done|].
  destruct (ch "-" sg || ch "+" sg).
  - apply (Hgo s2); [by apply suffix_cons_r | done].
  - by apply (Hgo (sg :: s2)).
Qed.

Lemma match_number_closes s v r : match_number s = Returns (v, r) → closes s r.
Proof.
  unfold match_number. intros H.
  assert (∀ c s2 r0, is_digit c = true →
            ((if ch "0" c then ([c], s2)
              else let '(ds, r) := digits s2 in (c :: ds, r)) : str * str).2 = r0 →
            closes (c :: s2) r0) as Hint.
  { intros c s2 r0 Hc <-. destruct (ch "0" c); simpl.
    - apply (closes_of_suffix c); [by apply is_digit_not_backquote | done].
    - pose proof (digits_closes c s2 Hc). by destruct (digits s2). }
  assert (∀ s0 r0, closes s0 r0 →
            closes s0 (default (default r0 (after_fraction r0))
                         (after_exponent (default r0 (after_fraction r0))))) as Htail.
  { intros s0 r0 H0. destruct (after_fraction r0) as [r1|] eqn:H1; simpl.
    - apply after_fraction_closes in H1. pose proof (closes_trans _ _ _ H0 H1) as H01.
      destruct (after_exponent r1) as [r2|] eqn:H2; simpl; [|done].
      apply after_exponent_closes in H2. by eapply closes_trans.
    - destruct (after_exponent r0) as [r2|] eqn:H2; simpl; [|done].
      apply after_exponent_closes in H2. by eapply closes_trans. }
  destruct s as [|c0 s0]; [done|].
  destruct (ch "-" c0) eqn:Hm.
  - destruct s0 as [|c s2]; [done|]. destruct (is_digit c) eqn:Hc; [|done].
    destruct (if ch "0" c then _ else _) as [ip r0] eqn:Hip.
    apply (f_equal snd) in Hip. apply Hint in Hip; [|done]. simpl in Hip.
    apply (closes_suffix_l _ (c0 :: c :: s2)) in Hip; [|by apply suffix_cons_r].
    specialize (Htail _ _ Hip).
    destruct (after_fraction r0) eqn:?; simpl in *;
      destruct (after_exponent _) eqn:?; simpl in *;
      repeat case_match; by simplify_eq.
  - destruct (is_digit c0) eqn:Hc; [|done].
    destruct (if ch "0" c0 then _ else _) as [ip r0] eqn:Hip.
    apply (f_equal snd) in Hip. apply Hint in Hip; [|done]. simpl in Hip.
    specialize (Htail _ _ Hip).
    destruct (after_fraction r0) eqn:?; simpl in *;
      destruct (after_exponent _) eqn:?; simpl in *;
      repeat case_match; by simplify_eq.
Qed.

Lemma scanstring_quote s v r : scanstring s = Returns (v, r) → 34%N :: r `suffix_of` s.
Proof.
  revert v r. induction s as [s IH] using (induction_ltof1 _ length).
  unfold ltof in IH. intros v r H.
  destruct s as [|c s1]; simpl in H; [done|].
  destruct (is_quote c) eqn:Hq.
  { unfold is_quote in Hq. apply N.eqb_eq in Hq as ->. by simplify_eq. }
  repeat case_match; simplify_eq;
    try (apply cons_char_returns in H as [v' H]; apply IH in H;
         [eauto 20 with scan | simpl; lia]).
Qed.

Lemma literal_closes s lit p c :
  startswith s lit = true → lit = p ++ [c] → c ≠ 96%N →
  closes s (drop (length lit) s).
Proof.
  intros [k ->]%startswith_true -> Hc. rewrite drop_app_length.
  exists p, c. by rewrite <-(assoc_L (++)).
Qed.

(** The last character read for a value is never a backquote. *)
Lemma scan_closes k fuel :
  (∀ limit s v r, scan_once k fuel limit s = Scanned v r → closes s r) ∧
  (∀ limit acc s v r, parse_elements k fuel limit acc s = Scanned v r → closes s r).
Proof.
  induction fuel as [|fuel (IHs & IHe)]; [by split|].
  split.
  - intros limit s v r H. simpl in H. destruct s as [|c s']; [done|].
    destruct (is_quote c).
    { destruct (scanstring s') as [[v0 r0]|] eqn:Hs; simplify_eq/=.
      apply scanstring_quote in Hs.
      apply (closes_of_suffix 34); [done | by apply suffix_cons_r]. }
    destruct (ch "{" c) eqn:Hc.
    { destruct limit as [|limit]; [done|].
      pose proof (skip_ws_suffix s') as Hsuf.
      destruct (skip_ws s') as [|c1 s2]; [done|].
      destruct (ch "}" c1) eqn:Hc1.
      - apply ch_true in Hc1 as ->. simplify_eq.
        apply (closes_of_suffix 125); [done | by apply suffix_cons_r].
      - apply (proj1 (proj2 (scan_returns k fuel))) in H as [Hr _].
        apply (closes_of_suffix 125); [done|].
        apply suffix_cons_r. by etrans. }
    destruct (ch "[" c).
    { destruct limit as [|limit]; [done|].
      pose proof (skip_ws_suffix s') as Hsuf.
      destruct (skip_ws s') as [|c1 s2]; [done|].
      destruct (ch "]" c1) eqn:Hc1.
      - apply ch_true in Hc1 as ->. simplify_eq.
        apply (closes_of_suffix 93); [done | by apply suffix_cons_r].
      - apply IHe in H. eapply closes_suffix_l; [exact H|]. by apply suffix_cons_r. }
    destruct (startswith (c :: s') (cp "null")) eqn:H1.
    { simplify_eq.
      by refine (literal_closes (c :: s') (cp "null") (cp "nul") 108 _ eq_refl _). }
    destruct (startswith (c :: s') (cp "true")) eqn:H2.
    { simplify_eq.
      by refine (literal_closes (c :: s') (cp "true") (cp "tru") 101 _ eq_refl _). }
    destruct (startswith (c :: s') (cp "false")) eqn:H3.
    { simplify_eq.
      by refine (literal_closes (c :: s') (cp "false") (cp "fals") 101 _ eq_refl _). }
    destruct (startswith (c :: s') (cp "NaN")) eqn:H4.
    { simplify_eq.
      by refine (literal_closes (c :: s') (cp "NaN") (cp "Na") 78 _ eq_refl _). }
    destruct (startswith (c :: s') (cp "Infinity")) eqn:H5.
    { simplify_eq.
      by refine (literal_closes (c :: s') (cp "Infinity") (cp "Infinit") 121 _ eq_refl _). }
    destruct (startswith (c :: s') (cp "-Infinity")) eqn:H6.
    { simplify_eq.
      by refine (literal_closes (c :: s') (cp "-Infinity") (cp "-Infinit") 121 _ eq_refl _). }
    by apply scan_of_scanned, match_number_closes in H.
  - intros limit acc s v r H. simpl in H.
    destruct (scan_once k fuel limit s) as [v1 s1| |] eqn:Hv; [|done..].
    apply (proj1 (scan_returns k fuel)) in Hv as [Hv%consumed_suffix _].
    pose proof (skip_ws_suffix s1) as Hs1.
    destruct (skip_ws s1) as [|c s2]; [done|].
    destruct (ch "]" c) eqn:Hc.
    { apply ch_true in Hc as ->. simplify_eq.
      apply (closes_of_suffix 93); [done | by etrans]. }
    destruct (ch "," c); [|done].
    apply IHe in H. eapply closes_suffix_l; [exact H|].
    etrans; [apply skip_ws_suffix|]. etrans; [|exact Hv].
    etrans; [|exact Hs1]. by apply suffix_cons_r.
Qed.

(** No JSON text ends with a backquote. *)
Lemma json_loads_not_backquote_end limit t v :
  json_loads limit (t ++ [96%N]) ≠ Returns v.
Proof.
  unfold json_loads. intros H.
  destruct (scan_once _ _ _ _) as [v' r| |] eqn:Hscan; [|done..].
  destruct (skip_ws r) eqn:Hr; simplify_eq.
  apply skip_ws_nil in Hr.
  apply (proj1 (scan_closes _ _)) in Hscan.
  apply (closes_suffix_l _ (t ++ [96%N])) in Hscan; [|apply skip_ws_suffix].
  destruct Hscan as (p & c & Heq & Hc).
  destruct (decide (r = [])) as [->|Hne].
  - apply (f_equal reverse) in Heq.
    rewrite reverse_app, reverse_snoc in Heq. simpl in Heq. by simplify_eq.
  - destruct (exists_last Hne) as (r' & c' & ->).
    apply Forall_app in Hr as [_ Hc'%Forall_inv]. simpl in Hc'.
    replace (p ++ c :: r' ++ [c']) with ((p ++ c :: r') ++ [c']) in Heq
      by (by rewrite <-(assoc_L (++))).
    apply app_inj_tail in Heq as [_ <-]. by apply json_ws_not_backquote in Hc'.
Qed.

(** ** A fence followed by blanks *)

Lemma strip_last c s : isspace c = false → ∃ s', strip (s ++ [c]) = s' ++ [c].
Proof.
  intros Hc.
  assert (∀ y, rstrip (y ++ [c]) = y ++ [c]) as Hr.
  { intros y. unfold rstrip. rewrite reverse_snoc. simpl. rewrite Hc.
    by rewrite reverse_cons, reverse_involutive. }
  unfold strip. rewrite lstrip_app. destruct (forallb isspace s).
  - exists []. simpl. rewrite Hc. apply (Hr []).
  - exists (lstrip s). apply Hr.
Qed.

Lemma cut_prefix_before_close t c w :
  isspace c = true →
  ∃ t', cut_prefix (t ++ fence_close ++ c :: w) = t' ++ fence_close ++ c :: w.
Proof.
  intros Hc.
  destruct (decide (fence_open `prefix_of` t ++ fence_close ++ c :: w)) as [H|H].
  2:{ exists t. by apply cut_prefix_other. }
  destruct (decide (7 ≤ length t)) as [Ht|Ht].
  { apply prefix_app_short in H as [t' ->]; [|by rewrite fence_open_eq].
    exists t'. by rewrite <-(assoc_L (++)), cut_prefix_app. }
  exfalso. rewrite fence_open_eq, fence_close_eq in H.
  destruct t as [|a1 [|a2 [|a3 [|a4 [|a5 [|a6 [|a7 t]]]]]]]; simpl in Ht; [..|lia];
    simpl in H;
    repeat (let H' := fresh in
            pose proof (prefix_cons_inv_1 _ _ _ _ H) as H';
            apply prefix_cons_inv_2 in H; try discriminate H'; subst);
    discriminate Hc.
Qed.

(** X1: a text whose closing fence is followed by blanks (a final line
    feed, say) is never decoded: the fence is not cut, and what is left is
    reported as a failed extraction. *)
Theorem X1_blank_after_fence (limit : recursion) (t w : str) :
  w ≠ [] → blank w →
  ∃ e, decoder_error e ∧
       normalize limit (t ++ fence_close ++ w) = extraction_failed e.
Proof.
  intros Hne Hw. unfold normalize, clean.
  destruct w as [|c w]; [done|]. pose proof (Forall_inv Hw) as Hc. simpl in Hc.
  destruct (cut_prefix_before_close t c w Hc) as [t' ->].
  destruct (exists_last Hne) as (w0 & c' & Hw0). rewrite Hw0 in *.
  apply Forall_app in Hw as Hw'. destruct Hw' as [_ Hc'%Forall_inv]. simpl in Hc'.
  rewrite cut_suffix_other.
  2:{ rewrite fence_close_eq. intros Hs%endswith_true.
      change [96; 96; 96]%N with ([96; 96]%N ++ [96%N]) in Hs.
      rewrite !(assoc_L (++) _ _ [c']) in Hs.
      rewrite endswith_last_ne in Hs; [done | by apply isspace_backquote]. }
  rewrite (assoc_L (++)), strip_blank_r by done.
  rewrite fence_close_eq.
  change [96; 96; 96]%N with ([96; 96]%N ++ [96%N]). rewrite (assoc_L (++)).
  destruct (strip_last 96%N (t' ++ [96; 96]%N)) as [s' ->]; [done|].
  unfold parse_or_report, extraction_failed.
  destruct (json_loads limit (s' ++ [96%N])) as [v|e] eqn:Hload.
  - by apply json_loads_not_backquote_end in Hload.
  - exists e. split; [by eapply json_loads_raises | done].
Qed.

Lemma X1_blank_after_fence_witness :
  ∃ e, decoder_error e ∧
       normalize usual_limit (wrap_in_fence (cp "{}") ++ [10%N]) = extraction_failed e.
Proof.
  replace (wrap_in_fence (cp "{}") ++ [10%N])
    with ((fence_open ++ [10%N] ++ cp "{}" ++ [10%N]) ++ fence_close ++ [10%N])
    by reflexivity.
  apply X1_blank_after_fence; [discriminate | by repeat constructor].
Defined.

(** ** The extraction client *)

Section GeminiFacts.
Variable limit : recursion.
Context {image : Type}.
Variable Image_open : str → outcome image.

Lemma load_images_ok image_paths acc images :
  Forall2 (λ path img, Image_open path = Returns img) image_paths images →
  load_images Image_open image_paths acc = inl (acc ++ images).
Proof.
  intros H. revert acc. induction H as [|path img rest images Hp _ IH]; intros acc; simpl.
  - by rewrite (right_id_L [] (++)).
  - rewrite Hp, IH. by rewrite <-(assoc_L (++)).
Qed.

Lemma load_images_fail before path after e acc :
  Forall (λ p, ∃ img, Image_open p = Returns img) before →
  Image_open path = Raises e →
  load_images Image_open (before ++ path :: after) acc
  = inr (st_error (cp "Could not load image " ++ path) e).
Proof.
  intros Hb He. revert acc.
  induction Hb as [|p before [img Hp] _ IH]; intros acc; simpl.
  - by rewrite He.
  - by rewrite Hp, IH.
Qed.

(** X2: the first image that cannot be opened ends the extraction: [None]
    is returned with the report of that image, whatever the model would
    answer and whatever the later paths are.  When every image opens, the
    model is asked once, with the images in the order of the paths, and
    its answer is normalised. *)
Theorem X2_extract_first_failure (generate_content : list image → outcome str)
    (image_paths : list str) :
  (∀ before path after e,
     image_paths = before ++ path :: after →
     Forall (λ p, ∃ img, Image_open p = Returns img) before →
     Image_open path = Raises e →
     extract_invoice_data_with_gemini limit Image_open generate_content image_paths
     = (JNull, [st_error (cp "Could not load image " ++ path) e])) ∧
  (∀ images,
     Forall2 (λ path img, Image_open path = Returns img) image_paths images →
     extract_invoice_data_with_gemini limit Image_open generate_content image_paths
     = match generate_content images with
       | Raises e => extraction_failed e
       | Returns result_text => normalize limit result_text
       end).
Proof.
  unfold extract_invoice_data_with_gemini. split.
  - intros before path after e -> Hb He. by rewrite (load_images_fail _ _ _ e).
  - intros images H. by rewrite (load_images_ok _ _ _ H).
Qed.

(** X3: the extraction never returns data together with a report: either
    nothing is reported, or [None] is returned with exactly one report. *)
Theorem X3_extract_data_or_report (generate_content : list image → outcome str)
    (image_paths : list str) :
  let '(data, reports) :=
    extract_invoice_data_with_gemini limit Image_open generate_content image_paths in
  reports = [] ∨ (data = JNull ∧ ∃ message e, reports = [st_error message e]).
Proof.
  unfold extract_invoice_data_with_gemini.
  destruct (load_images _ _ _) as [images|[message e]]; [|eauto].
  destruct (generate_content images) as [result_text|e]; [|eauto].
  unfold normalize, parse_or_report. destruct (json_loads limit _); eauto.
Qed.
End GeminiFacts.

Lemma X2_extract_first_failure_witness :
  extract_invoice_data_with_gemini usual_limit
    (λ path, if decide (path = cp "b.png") then Raises ImageError else Returns path)
    (λ _, Returns (cp "{}")) [cp "a.png"; cp "b.png"; cp "c.png"]
  = (JNull, [st_error (cp "Could not load image b.png") ImageError])
  ∧ extract_invoice_data_with_gemini usual_limit (λ path, Returns path)
      (λ images, Returns (dq "{'n': " ++ str_of_N (N.of_nat (length images)) ++ cp "}"))
      [cp "a.png"; cp "b.png"]
    = (JObject [(cp "n", JInt 2)], []).
Proof.
  split.
  - eapply (proj1 (X2_extract_first_failure _ _ _ _) [cp "a.png"] (cp "b.png") [cp "c.png"]).
    + reflexivity.
    + repeat constructor. by eexists.
    + reflexivity.
  - etrans; [eapply (proj2 (X2_extract_first_failure _ _ _ _) [cp "a.png"; cp "b.png"])|].
    + by repeat constructor.
    + vm_compute. reflexivity.
Defined.

(** ** Image paths, from the column to the page *)

Lemma split_from_sep_app sep cur x y :
  split_from sep cur (x ++ sep :: y) = split_from sep cur x ++ split_from sep [] y.
Proof.
  revert cur. induction x as [|c x IH]; intros cur; simpl.
  - by rewrite N.eqb_refl.
  - destruct (c =? sep)%N; simpl; by rewrite IH.
Qed.

Lemma split_length sep cur s : 0 < length (split_from sep cur s).
Proof.
  revert cur. induction s as [|c s IH]; intros cur; simpl; [lia|].
  destruct (c =? sep)%N; simpl; [lia | apply IH].
Qed.

(** X4: what the detail page reads back from the column written by
    [save_invoice_to_db] is, for each locator in turn, the pieces of that
    locator between its commas; it is the list of locators itself when no
    locator holds a comma. *)
Theorem X4_split_join (locators : list str) :
  locators ≠ [] →
  split 44 (join (cp ",") locators) = locators ≫= split 44 ∧
  (Forall (λ p, 44%N ∉ p) locators → split 44 (join (cp ",") locators) = locators).
Proof.
  intros Hne. split; [|by apply split_join].
  change (cp ",") with [44%N]. unfold split.
  induction locators as [|x l IH]; [done|]. clear Hne.
  destruct l as [|y l].
  - simpl. by rewrite (right_id_L [] (++)).
  - change (join [44%N] (x :: y :: l)) with (x ++ 44%N :: join [44%N] (y :: l)).
    rewrite split_from_sep_app, IH by done. reflexivity.
Qed.

Lemma X4_split_join_witness :
  split 44 (join (cp ",") [cp "uploaded_images/a.png"; comma_locator])
  = [cp "uploaded_images/a.png"; cp "uploaded_images/a"; cp "b.png"].
Proof.
  by rewrite (proj1 (X4_split_join [cp "uploaded_images/a.png"; comma_locator] ltac:(done))).
Defined.

(** ** Keys and consistency *)

Lemma NoDup_snoc_fresh (ids : list N) x : NoDup ids → x ∉ ids → NoDup (ids ++ [x]).
Proof.
  intros Hnd Hx. apply NoDup_app. split_and!; [done| |apply NoDup_singleton].
  intros y Hy ->%list_elem_of_singleton. done.
Qed.

Section Consistency.
Variable E : engine.
Variable now : N.

(** An INSERT keeps the tables consistent, when a line refers to a header
    that is there. *)
Lemma insert_consistent db obj key db' :
  consistent db →
  match obj with
  | NewLine header_id _ _ _ _ => header_id ∈ InvoiceHeader.id <$> invoice_header db
  | NewHeader _ _ _ _ _ => True
  end →
  insert E now db obj = Returns (key, db') →
  consistent db' ∧
  (∀ id, id ∈ InvoiceHeader.id <$> invoice_header db →
         id ∈ InvoiceHeader.id <$> invoice_header db').
Proof.
  intros [Hh Hl Hp Hr] Hobj Hins. destruct obj as [s i t x p|hid d q u a]; simpl in Hins.
  - destruct (insert_header_fails E db _); simplify_eq. split.
    + split; simpl; [| done | |].
      * rewrite fmap_app. apply NoDup_snoc_fresh; [done | apply next_rowid_fresh].
      * apply Forall_app. split; [done|]. constructor; [|done]. apply next_rowid_pos.
      * eapply Forall_impl; [exact Hr|]. intros l Hl0. simpl in *.
        rewrite fmap_app. apply elem_of_app. by left.
    + intros id Hid. simpl. rewrite fmap_app. apply elem_of_app. by left.
  - destruct (insert_line_fails E db _); simplify_eq. split; [|done].
    split; simpl; [done | | done |].
    + rewrite fmap_app. apply NoDup_snoc_fresh; [done | apply next_rowid_fresh].
    + apply Forall_app. split; [done|]. by constructor.
Qed.

Lemma insert_all_consistent header_id lines db keys db' :
  Forall (λ obj, ∃ d q u a, obj = NewLine header_id d q u a) lines →
  consistent db →
  header_id ∈ InvoiceHeader.id <$> invoice_header db →
  insert_all E now db lines = Returns (keys, db') →
  consistent db'.
Proof.
  intros Hlines. revert db keys db'.
  induction Hlines as [|line lines (d & q & u & a & ->) _ IH]; intros db keys db' Hc Hid.
  - by intros [= <- <-].
  - cbn [insert_all]. intros Hrun.
    destruct (insert E now db (NewLine header_id d q u a)) as [[k db1]|] eqn:Hins;
      [|done].
    simpl in Hrun.
    destruct (insert_all E now db1 lines) as [[ks db2]|] eqn:Hrest; [|done].
    simpl in Hrun. injection Hrun as <- <-.
    apply insert_consistent in Hins as [Hc1 Hmono]; [|done..].
    eapply IH; [exact Hc1 | by apply Hmono | exact Hrest].
Qed.

Lemma save_consistent db extracted_data image_paths :
  consistent db →
  consistent (save_invoice_to_db E now db extracted_data image_paths).2.
Proof.
  intros Hc. rewrite save_invoice_to_db_unfold.
  destruct (new_header _ _) as [header|] eqn:Hheader; [|done].
  apply new_header_shape in Hheader as (s & i & t & x & ->).
  destruct (insert E now db _) as [[header_id db1]|] eqn:Hins; [|done].
  destruct (_ ≫= py_iter) as [items|]; [|done].
  destruct (new_lines header_id items) as [lines|] eqn:Hlines; [|done].
  destruct (insert_all E now db1 lines) as [[keys db2]|] eqn:Hall; [|done].
  destruct (commit_fails E db2); [done|].
  assert (consistent db2) as Hc2; [|by destruct (select_fails E db2 header_id)].
  apply new_lines_shape in Hlines.
  pose proof Hins as Hins'. apply insert_consistent in Hins' as [Hc1 _]; [|done..].
  eapply insert_all_consistent; [exact Hlines | exact Hc1 | | exact Hall].
  simpl in Hins. destruct (insert_header_fails E db _); simplify_eq. simpl.
  rewrite fmap_app. apply elem_of_app. right. by apply list_elem_of_singleton.
Qed.

(** X5: [save_invoice_to_db] keeps the tables consistent: after the call,
    as before it, header ids are positive and distinct, line ids are
    distinct, and every line refers to a header that exists. *)
Theorem X5_save_keeps_consistent db extracted_data image_paths :
  consistent db →
  consistent (save_invoice_to_db E now db extracted_data image_paths).2.
Proof. apply save_consistent. Qed.

(** What a call leaves: the tables as they were, or one more header and
    its lines; and then the id is returned, unless the SELECT after the
    COMMIT was refused. *)
Lemma save_cases db extracted_data image_paths :
  (∃ h rows r,
     save_invoice_to_db E now db extracted_data image_paths
     = (Returns r,
        {| invoice_header := invoice_header db ++ [h];
           invoice_line_items := invoice_line_items db ++ rows |}) ∧
     InvoiceHeader.id h = next_rowid (InvoiceHeader.id <$> invoice_header db) ∧
     InvoiceHeader.image_paths h = join (cp ",") image_paths ∧
     InvoiceHeader.created_at h = now ∧
     Forall (λ row, InvoiceLineItem.header_id row = InvoiceHeader.id h) rows ∧
     (r = (Some (InvoiceHeader.id h), [])
      ∨ r = (None, [st_error (cp "Database save failed") DBAPIError]) ∧
        select_fails E {| invoice_header := invoice_header db ++ [h];
                          invoice_line_items := invoice_line_items db ++ rows |}
          (InvoiceHeader.id h) = true))
  ∨ (∃ e, save_invoice_to_db E now db extracted_data image_paths = save_failed e db).
Proof.
  destruct (save_outcome E now db extracted_data image_paths)
    as [?|(items & h & rows & (Hid & Hpaths & Hnow & _ & _ & Hrows) & Hrun)]; [by right|].
  left. exists h, rows.
  assert (Forall (λ row, InvoiceLineItem.header_id row = InvoiceHeader.id h) rows)
    as Hrefs.
  { eapply Forall2_Forall_r; [exact Hrows|]. apply Forall_forall.
    by intros item _ row [? _]. }
  unfold appended in Hrun.
  destruct (select_fails E _ _) eqn:Hselect; eexists; (split; [exact Hrun|]);
    split_and!; auto.
Qed.
End Consistency.

(** X6: every database the program can build from the empty one is
    consistent. *)
Theorem X6_reachable_consistent (db : database) : reachable db → consistent db.
Proof.
  induction 1 as [|E now db extracted_data image_paths _ IH].
  - split; simpl; constructor.
  - by apply save_consistent.
Qed.

Lemma X5_save_keeps_consistent_witness :
  consistent (save_invoice_to_db sound_engine 7 one_invoice (normalize usual_limit acme).1 []).2.
Proof.
  apply X5_save_keeps_consistent. split; simpl.
  - apply NoDup_singleton.
  - apply NoDup_singleton.
  - by repeat constructor.
  - constructor; [|constructor]. by apply list_elem_of_singleton.
Defined.

Lemma X6_reachable_consistent_witness :
  consistent (save_invoice_to_db sound_engine 7 empty_db (normalize usual_limit acme).1 []).2.
Proof. apply X6_reachable_consistent. apply reachable_save, reachable_empty. Defined.

(** ** Saving, then reading *)

Lemma order_by_desc_snoc_newest {A} (key : A → N) (l : list A) (x : A) :
  Forall (λ y, key y < key x)%N l →
  order_by_desc key (l ++ [x]) = x :: order_by_desc key l.
Proof.
  induction 1 as [|y l Hy _ IH]; simpl; [done|].
  rewrite IH. simpl. by rewrite (proj2 (N.ltb_lt _ _) Hy).
Qed.

Section SaveThenRead.
Variable E : engine.
Variable now : N.

(** X7: [save_invoice_to_db] only appends: the rows that were there are
    still there, unchanged and in the same place, whether the call
    succeeds or not. *)
Theorem X7_save_only_appends db extracted_data image_paths :
  let db' := (save_invoice_to_db E now db extracted_data image_paths).2 in
  invoice_header db `prefix_of` invoice_header db' ∧
  invoice_line_items db `prefix_of` invoice_line_items db'.
Proof.
  destruct (save_cases E now db extracted_data image_paths)
    as [(h & rows & r & -> & _)|[e ->]]; simpl; [|done].
  split; by apply prefix_app_r.
Qed.

(** X8: the id a successful call returns is positive and larger than every
    id in the table, and looking it up afterwards finds the header just
    written (its [image_paths] the comma-join of the locators, its
    [created_at] the time of the insert); the detail page opened with
    [go_to_detail] on that id renders this invoice. *)
Theorem X8_saved_invoice_is_found db extracted_data image_paths invoice_id reports db' st :
  save_invoice_to_db E now db extracted_data image_paths
  = (Returns (Some invoice_id, reports), db') →
  ∃ h,
    get_invoice_detail db' invoice_id = Some (detach (loaded h)) ∧
    last (invoice_header db') = Some h ∧
    InvoiceHeader.id h = invoice_id ∧
    InvoiceHeader.image_paths h = join (cp ",") image_paths ∧
    InvoiceHeader.created_at h = now ∧
    (0 < invoice_id)%N ∧
    Forall (λ h0, InvoiceHeader.id h0 < invoice_id)%N (invoice_header db) ∧
    detail_page_route db' (go_to_detail invoice_id st)
    = (Render (detach (loaded h)), [], go_to_detail invoice_id st).
Proof.
  intros Hsave.
  destruct (save_cases E now db extracted_data image_paths)
    as [(h & rows & r & Hrun & Hid & Hpaths & Hnow & _ & [->|[-> _]])|[e Hrun]];
    rewrite Hrun in Hsave; [|done..].
  injection Hsave as <- <- <-.
  assert (get_invoice_detail
            {| invoice_header := invoice_header db ++ [h];
               invoice_line_items := invoice_line_items db ++ rows |}
            (InvoiceHeader.id h) = Some (detach (loaded h))) as Hget.
  { unfold get_invoice_detail. simpl. rewrite filter_app, filter_none.
    - by rewrite filter_cons_True.
    - eapply Forall_impl; [apply headers_below_next|]. simpl. intros h0 Hlt. lia. }
  assert (0 < InvoiceHeader.id h)%N as Hpos by (rewrite Hid; apply next_rowid_pos).
  exists h. split_and!; try done.
  - simpl. by rewrite last_snoc.
  - rewrite Hid. apply headers_below_next.
  - unfold detail_page_route. simpl.
    rewrite (proj2 (N.eqb_neq _ 0)) by lia. simpl. by rewrite Hget.
Qed.

(** X9: a call does not change what any other id resolves to: for every id
    but the next free one, [get_invoice_detail] answers after the call as
    it did before. *)
Theorem X9_other_ids_unchanged db extracted_data image_paths other :
  other ≠ next_rowid (InvoiceHeader.id <$> invoice_header db) →
  get_invoice_detail (save_invoice_to_db E now db extracted_data image_paths).2 other
  = get_invoice_detail db other.
Proof.
  intros Hother.
  destruct (save_cases E now db extracted_data image_paths)
    as [(h & rows & r & -> & Hid & _)|[e ->]]; simpl; [|done].
  unfold get_invoice_detail. simpl.
  rewrite filter_app, (filter_cons_False _ h); [|congruence].
  by rewrite filter_nil, (right_id_L [] (++)).
Qed.

(** X10: when the clock has moved on since the last insert, the invoice
    just saved is the first of the list page, and the others follow as
    before. *)
Theorem X10_saved_invoice_listed_first db extracted_data image_paths invoice_id reports db' :
  Forall (λ h, InvoiceHeader.created_at h < now)%N (invoice_header db) →
  save_invoice_to_db E now db extracted_data image_paths
  = (Returns (Some invoice_id, reports), db') →
  ∃ h, InvoiceHeader.id h = invoice_id ∧
       columns <$> get_all_invoices db' = h :: (columns <$> get_all_invoices db).
Proof.
  intros Hclock Hsave.
  destruct (save_cases E now db extracted_data image_paths)
    as [(h & rows & r & Hrun & Hid & Hpaths & Hnow & _ & [->|[-> _]])|[e Hrun]];
    rewrite Hrun in Hsave; [|done..].
  injection Hsave as <- <- <-. exists h. split; [done|].
  rewrite !get_all_invoices_columns. simpl.
  apply order_by_desc_snoc_newest. by rewrite Hnow.
Qed.

(** X11: in a consistent database, the lines that refer to the invoice just
    saved are exactly the rows the call inserted, in order, and the lines
    of every older invoice are the ones it had. *)
Theorem X11_lines_of_saved_invoice db extracted_data image_paths invoice_id reports db' :
  consistent db →
  save_invoice_to_db E now db extracted_data image_paths
  = (Returns (Some invoice_id, reports), db') →
  ∃ h rows,
    InvoiceHeader.id h = invoice_id ∧
    invoice_line_items db' = invoice_line_items db ++ rows ∧
    line_items db' (loaded h) = Returns rows ∧
    ∀ h0, h0 ∈ invoice_header db →
          line_items db' (loaded h0) = line_items db (loaded h0).
Proof.
  intros [_ _ _ Hrefs] Hsave.
  destruct (save_cases E now db extracted_data image_paths)
    as [(h & rows & r & Hrun & Hid & _ & _ & Hrows & [->|[-> _]])|[e Hrun]];
    rewrite Hrun in Hsave; [|done..].
  injection Hsave as <- <- <-. exists h, rows. split_and!; try done.
  - unfold line_items. simpl. f_equal.
    rewrite filter_app, filter_none, filter_all; [done | done |].
    eapply Forall_impl; [exact Hrefs|]. simpl. intros l Hl Heq.
    rewrite Heq, Hid in Hl. by apply next_rowid_fresh in Hl.
  - intros h0 Hh0. unfold line_items. simpl. f_equal.
    rewrite filter_app, (filter_none _ rows); [by rewrite (right_id_L [] (++))|].
    eapply Forall_impl; [exact Hrows|]. simpl. intros row -> Heq.
    apply (list_elem_of_fmap_2 InvoiceHeader.id) in Hh0.
    rewrite <-Heq, Hid in Hh0. by apply next_rowid_fresh in Hh0.
Qed.
End SaveThenRead.

Lemma X8_saved_invoice_is_found_witness :
  get_invoice_detail
    (save_invoice_to_db sound_engine 7 one_invoice (normalize usual_limit acme).1 [cp "a.png"]).2 2
  = Some (detach (loaded
            (InvoiceHeader.Build_t 2 (JString (cp "Acme")) (JString (cp "2024-01-05"))
               (JFloat (cp "120.5")) JNull (cp "a.png") 7))).
Proof.
  assert (save_invoice_to_db sound_engine 7 one_invoice (normalize usual_limit acme).1 [cp "a.png"]
          = (Returns (Some 2%N, []),
             (save_invoice_to_db sound_engine 7 one_invoice (normalize usual_limit acme).1
                [cp "a.png"]).2)) as Hsave by (vm_compute; reflexivity).
  destruct (X8_saved_invoice_is_found sound_engine 7 one_invoice _ _ 2 [] _
              {| page := upload_page; selected_invoice := None |} Hsave)
    as (h & Hget & Hlast & _).
  rewrite Hget. vm_compute in Hlast. by injection Hlast as <-.
Defined.

Lemma X9_other_ids_unchanged_witness :
  get_invoice_detail
    (save_invoice_to_db sound_engine 7 one_invoice (normalize usual_limit acme).1 []).2 1
  = get_invoice_detail one_invoice 1.
Proof. apply X9_other_ids_unchanged. vm_compute. discriminate. Defined.

Lemma X10_saved_invoice_listed_first_witness :
  ∃ h, InvoiceHeader.id h = 2%N ∧
       columns <$> get_all_invoices
         (save_invoice_to_db sound_engine 11 one_invoice (normalize usual_limit acme).1 []).2
       = h :: (columns <$> get_all_invoices one_invoice).
Proof.
  assert (save_invoice_to_db sound_engine 11 one_invoice (normalize usual_limit acme).1 []
          = (Returns (Some 2%N, []),
             (save_invoice_to_db sound_engine 11 one_invoice (normalize usual_limit acme).1 []).2))
    as Hsave by (vm_compute; reflexivity).
  eapply X10_saved_invoice_listed_first; [|exact Hsave].
  constructor; [|constructor]. reflexivity.
Defined.

Lemma X11_lines_of_saved_invoice_witness :
  ∃ h rows,
    InvoiceHeader.id h = 2%N ∧
    invoice_line_items
      (save_invoice_to_db sound_engine 7 one_invoice (normalize usual_limit acme).1 []).2
    = invoice_line_items one_invoice ++ rows ∧
    line_items (save_invoice_to_db sound_engine 7 one_invoice (normalize usual_limit acme).1 []).2
      (loaded h) = Returns rows.
Proof.
  assert (save_invoice_to_db sound_engine 7 one_invoice (normalize usual_limit acme).1 []
          = (Returns (Some 2%N, []),
             (save_invoice_to_db sound_engine 7 one_invoice (normalize usual_limit acme).1 []).2))
    as Hsave by (vm_compute; reflexivity).
  assert (consistent one_invoice) as Hc.
  { split; simpl; [apply NoDup_singleton | apply NoDup_singleton | |].
    - constructor; [reflexivity | constructor].
    - constructor; [|constructor]. by apply list_elem_of_singleton. }
  destruct (X11_lines_of_saved_invoice sound_engine 7 one_invoice _ _ 2 [] _ Hc Hsave)
    as (h & rows & H1 & H2 & H3 & _).
  by exists h, rows.
Defined.

(** ** The detail page *)

(** X12: the image grid of the detail page has between one and three
    columns, one cell per path read from the column, and every cell goes to
    a column that exists. *)
Theorem X12_grid_in_bounds (image_paths : str) :
  1 ≤ grid_columns image_paths ≤ 3 ∧
  length (grid_cells image_paths) = length (split 44 image_paths) ∧
  ∀ i col path,
    grid_cells image_paths !! i = Some (col, path) →
    col < grid_columns image_paths ∧ split 44 image_paths !! i = Some path.
Proof.
  unfold grid_columns, grid_cells.
  pose proof (split_length 44 [] image_paths) as Hlen. fold (split 44 image_paths) in Hlen.
  split_and!; [lia | lia | apply length_imap |].
  intros i col path Hcell. rewrite list_lookup_imap in Hcell.
  destruct (split 44 image_paths !! i) as [path'|] eqn:Hi; [|done].
  injection Hcell as <- <-.
  split; [|done]. apply lookup_lt_Some in Hi.
  change (2 - (Nat.divmod i 2 0 2).2) with (i `mod` 3).
  destruct (decide (3 ≤ length (split 44 image_paths))).
  - rewrite Nat.min_r by done. by apply Nat.mod_upper_bound.
  - rewrite Nat.min_l by lia. rewrite Nat.mod_small by lia. done.
Qed.

(** X13: the detail page renders an invoice only when a header has the
    selected id, and then that header, leaving the session state alone;
    with nothing selected, with 0 selected, or with an id no header has, it
    reports an error and sends the user to the list page. *)
Theorem X13_detail_page_route (db : database) (st : session_state) :
  match detail_page_route db st with
  | (Render invoice, shown, st') =>
      selected_invoice st = Some (InvoiceHeader.id (columns invoice)) ∧
      columns invoice ∈ invoice_header db ∧ shown = [] ∧ st' = st
  | (NotFound, shown, st') =>
      (∃ n, selected_invoice st = Some n ∧
            ∀ h, h ∈ invoice_header db → InvoiceHeader.id h ≠ n) ∧
      shown = [st_error_text (cp "Invoice not found.")] ∧ page st' = list_page
  | (NoSelection, shown, st') =>
      (selected_invoice st = None ∨ selected_invoice st = Some 0%N) ∧
      shown = [st_error_text (cp "No invoice selected.")] ∧ page st' = list_page
  end.
Proof.
  unfold detail_page_route. destruct (selected_invoice st) as [n|] eqn:Hsel; simpl.
  2:{ split_and!; eauto. }
  destruct (N.eqb_spec n 0) as [->|Hn]; simpl.
  { split_and!; eauto. }
  unfold get_invoice_detail.
  destruct (filter _ (invoice_header db)) as [|h l] eqn:Hf; simpl.
  - split_and!; [|done..]. exists n. split; [done|].
    intros h Hh Hid. by apply (filter_nil_not_elem_of _ _ h Hf Hid).
  - assert (h ∈ filter (λ h, InvoiceHeader.id h = n) (invoice_header db))
      as [Hid Hh]%list_elem_of_filter by (rewrite Hf; left).
    split_and!; [by rewrite Hid | done..].
Qed.

(** ** The list page *)

Lemma str_of_uint_inj u u' : str_of_uint u = str_of_uint u' → u = u'.
Proof.
  revert u'. induction u as [|u IH|u IH|u IH|u IH|u IH|u IH|u IH|u IH|u IH|u IH];
    intros [|v|v|v|v|v|v|v|v|v|v]; simpl; intros [=]; f_equal; auto.
Qed.

Lemma str_of_N_inj n m : str_of_N n = str_of_N m → n = m.
Proof. intros H%str_of_uint_inj. by apply DecimalN.Unsigned.to_uint_inj. Qed.

Lemma NoDup_key_inj {A} (key : A → N) (l : list A) x y :
  NoDup (key <$> l) → x ∈ l → y ∈ l → key x = key y → x = y.
Proof.
  induction l as [|h l IH]; [by intros _ ?%elem_of_nil|].
  rewrite fmap_cons. intros [Hh Hl]%NoDup_cons Hx Hy Hkey.
  apply elem_of_cons in Hx as [->|Hx]; apply elem_of_cons in Hy as [->|Hy].
  - done.
  - exfalso. apply Hh. rewrite Hkey. by apply list_elem_of_fmap_2.
  - exfalso. apply Hh. rewrite <-Hkey. by apply list_elem_of_fmap_2.
  - by apply IH.
Qed.

(** X14: in a consistent database the [View] buttons of the list page have
    pairwise different keys, and there is one button per header. *)
Theorem X14_view_keys_distinct (db : database) :
  consistent db →
  NoDup (view_key <$> get_all_invoices db) ∧
  length (get_all_invoices db) = length (invoice_header db).
Proof.
  intros [Hids _ _ _].
  assert (columns <$> get_all_invoices db ≡ₚ invoice_header db) as Hperm
    by (rewrite get_all_invoices_columns; apply order_by_desc_perm).
  split.
  - apply NoDup_fmap_2_strong.
    + intros o o2 Ho Ho2 Hkey. unfold view_key in Hkey.
      apply app_inv_head, str_of_N_inj in Hkey.
      assert (∀ o, o ∈ get_all_invoices db →
                   o = detach (loaded (columns o)) ∧ columns o ∈ invoice_header db)
        as Hshape.
      { intros o0 Ho0. split.
        - unfold get_all_invoices in Ho0.
          apply list_elem_of_fmap in Ho0 as (x & -> & Hx).
          by apply list_elem_of_fmap in Hx as (r & -> & Hr).
        - rewrite <-Hperm. by apply list_elem_of_fmap_2. }
      destruct (Hshape o Ho) as [-> Hin], (Hshape o2 Ho2) as [-> Hin2].
      f_equal. f_equal. by eapply NoDup_key_inj.
    + apply (NoDup_fmap_1 columns). rewrite Hperm. by apply NoDup_fmap_1 in Hids.
  - by rewrite <-(length_fmap columns), Hperm.
Qed.

Lemma X14_view_keys_distinct_witness :
  NoDup (view_key <$> get_all_invoices three_headers) ∧
  length (get_all_invoices three_headers) = 3.
Proof.
  apply X14_view_keys_distinct. split; simpl.
  - by apply (bool_decide_unpack _).
  - constructor.
  - by repeat constructor.
  - constructor.
Defined.


(** ** The upload page *)

(** No success message among the events shown: none is a report. *)
Ltac no_success Hrep :=
  let text := fresh "text" in
  let H := fresh "H" in
  intros text;
  repeat (rewrite elem_of_cons || rewrite elem_of_app || rewrite elem_of_nil);
  intros H; decompose [or] H; clear H; try done; by eapply Hrep.

Section UploadPage.
Variable limit : recursion.
Context {image : Type}.
Variable Image_open : str → outcome image.
Variable generate_content : list image → outcome str.
Variable os : os_faults.
Variable E : engine.
Variable now : N.
Variable view_clicked another_clicked : bool.

(** X15: a run of [Process Invoice] that comes to its end shows the
    success message only when a header was committed.  With no upload it
    warns and touches nothing.  Otherwise every upload has been written to
    disk, whatever happens next, and either the database and the session
    state are as they were and no success message is shown, or one header
    was appended, whose [image_paths] is the comma-join of the locators of
    the uploads.  In that case the success message carries the header's
    id, unless the SELECT after the COMMIT was refused: then the page says
    that the save failed, though the header is stored. *)
Theorem X15_process_invoice_outcome (w : world) (uploaded_files : list uploaded_file)
    (shown : list page_event) (w' : world) :
  process_invoice limit Image_open generate_content os E now view_clicked another_clicked
    w uploaded_files = Returns (shown, w') →
  (uploaded_files = [] →
     w' = w ∧ shown = [st_warning (cp "Please provide at least one image.")]) ∧
  (uploaded_files ≠ [] →
     files (disk w') = written (files (disk w)) uploaded_files ∧
     ((db w' = db w ∧ state w' = state w ∧ ∀ text, st_success text ∉ shown)
      ∨ (∃ h rows,
           db w' = {| invoice_header := invoice_header (db w) ++ [h];
                      invoice_line_items := invoice_line_items (db w) ++ rows |} ∧
           InvoiceHeader.image_paths h = join (cp ",") (locator <$> uploaded_files) ∧
           (st_success (cp "Invoice #" ++ str_of_N (InvoiceHeader.id h)
                        ++ cp " saved successfully!") ∈ shown
            ∨ select_fails E (db w') (InvoiceHeader.id h) = true ∧
              state w' = state w ∧
              (∀ text, st_success text ∉ shown) ∧
              reported (st_error (cp "Database save failed") DBAPIError) ∈ shown ∧
              st_error_text (cp "Failed to save invoice.") ∈ shown)))).
Proof.
  unfold process_invoice. destruct uploaded_files as [|file rest].
  { intros [= <- <-]. split; [done|]. by intros []. }
  destruct (save_uploaded_images os (disk w) (file :: rest)) as [[paths disk']|] eqn:Hdisk;
    simpl; [|done].
  apply save_uploaded_images_returns in Hdisk as (-> & _ & Hwritten).
  destruct (extract_invoice_data_with_gemini _ _ _ _) as [extracted reports1].
  assert (∀ (l : list ui_event) text, st_success text ∉ reported <$> l) as Hrep.
  { intros l text (ev & [=] & _)%list_elem_of_fmap. }
  destruct (truthy extracted).
  2:{ intros [= <- <-]. split; [done|]. intros _. split; [done|]. left.
      split_and!; [done..|]. no_success Hrep. }
  destruct (save_cases E now (db w) extracted (locator <$> file :: rest))
    as [(h & rows & r & -> & Hid & Hpaths & _ & _ & [->|[-> Hselect]])|[e ->]]; simpl.
  - rewrite (proj2 (N.eqb_neq _ 0)) by (rewrite Hid; pose proof (next_rowid_pos
      (InvoiceHeader.id <$> invoice_header (db w))); lia).
    simpl. intros [= <- <-]. split; [done|]. intros _. split; [done|]. right.
    exists h, rows. split_and!; [done..|]. left.
    repeat (rewrite elem_of_cons || rewrite elem_of_app || rewrite elem_of_nil).
    auto 10.
  - intros [= <- <-]. split; [done|]. intros _. split; [done|]. right.
    exists h, rows. split_and!; [done..|]. right. split_and!; [done..| | |].
    + no_success Hrep.
    + repeat (rewrite elem_of_cons || rewrite elem_of_app || rewrite elem_of_nil).
      auto 10.
    + repeat (rewrite elem_of_cons || rewrite elem_of_app || rewrite elem_of_nil).
      auto 10.
  - intros [= <- <-]. split; [done|]. intros _. split; [done|]. left.
    split_and!; [done..|]. no_success Hrep.
Qed.

(** X16: what the upload page does with a decoded value.  When the value
    the extraction returns is falsy ([None], [false], [0], an empty string,
    list or object) the page says the extraction failed and the store is
    not called, though the decoder may have reported nothing.  When it is
    truthy but not an object, the store refuses it with an
    [AttributeError] and the page says the save failed.  In both cases the
    database is left as it was. *)
Theorem X16_process_invoice_rejects (w : world) (uploaded_files : list uploaded_file)
    (paths : list str) (disk' : filesystem) (extracted : json) (reports : list ui_event) :
  uploaded_files ≠ [] →
  save_uploaded_images os (disk w) uploaded_files = Returns (paths, disk') →
  extract_invoice_data_with_gemini limit Image_open generate_content paths
  = (extracted, reports) →
  (truthy extracted = false →
     process_invoice limit Image_open generate_content os E now view_clicked another_clicked
       w uploaded_files
     = Returns ([st_spinner (cp "Saving images...");
                 st_spinner (cp "Extracting data with Gemini...")]
                ++ (reported <$> reports)
                ++ [st_error_text (cp "Extraction failed. Please try again.")],
                {| disk := disk'; db := db w; state := state w |})) ∧
  (truthy extracted = true → (∀ d, extracted ≠ JObject d) →
     process_invoice limit Image_open generate_content os E now view_clicked another_clicked
       w uploaded_files
     = Returns ([st_spinner (cp "Saving images...");
                 st_spinner (cp "Extracting data with Gemini...")]
                ++ (reported <$> reports)
                ++ [st_spinner (cp "Saving to database...");
                    reported (st_error (cp "Database save failed") AttributeError);
                    st_error_text (cp "Failed to save invoice.")],
                {| disk := disk'; db := db w; state := state w |})).
Proof.
  intros Hne Hdisk Hextract. unfold process_invoice.
  destruct uploaded_files as [|file rest]; [done|].
  rewrite Hdisk. simpl. rewrite Hextract. split.
  - intros ->. by rewrite <-?(assoc_L (++)).
  - intros -> Hobj.
    replace (save_invoice_to_db E now (db w) extracted paths)
      with (save_failed AttributeError (db w)).
    + simpl. by rewrite <-?(assoc_L (++)).
    + rewrite save_invoice_to_db_unfold. unfold new_header.
      destruct extracted; try done. by destruct (Hobj d).
Qed.
End UploadPage.

Lemma X15_process_invoice_outcome_witness :
  ∃ shown w',
    process_invoice usual_limit (λ path, Returns path) (λ _, Returns (wrap_in_fence acme))
      no_faults sound_engine 7 false false
      {| disk := empty_fs; db := empty_db;
         state := {| page := upload_page; selected_invoice := None |} |}
      two_uploads = Returns (shown, w') ∧
    files (disk w') = written ∅ two_uploads ∧
    st_success (cp "Invoice #1 saved successfully!") ∈ shown ∧
    InvoiceHeader.image_paths <$> invoice_header (db w')
    = [cp "uploaded_images/a.png,uploaded_images/b.png"].
Proof.
  set (w := {| disk := empty_fs; db := empty_db;
               state := {| page := upload_page; selected_invoice := None |} |}).
  set (run := process_invoice usual_limit (λ path, Returns path) (λ _, Returns (wrap_in_fence acme))
                no_faults sound_engine 7 false false w two_uploads).
  destruct (save_uploaded_images_total no_faults empty_fs two_uploads eq_refl
              (λ _ _, eq_refl)) as [disk' Hdisk].
  assert (∃ shown db',
            run = Returns (shown, {| disk := disk'; db := db'; state := state w |}) ∧
            st_success (cp "Invoice #1 saved successfully!") ∈ shown)
    as (shown & db' & Hrun & Hshown).
  { unfold run, process_invoice, two_uploads in *. cbv beta iota.
    change (disk w) with empty_fs. rewrite Hdisk. clear Hdisk.
    eexists _, _. split; [vm_compute; reflexivity|].
    apply list_elem_of_In. vm_compute. tauto. }
  subst run.
  exists shown, {| disk := disk'; db := db'; state := state w |}. split; [exact Hrun|].
  destruct (X15_process_invoice_outcome _ _ _ _ _ _ _ _ w two_uploads _ _ Hrun)
    as [_ Hsome].
  destruct (Hsome ltac:(done)) as [Hfiles [(_ & _ & Hnone)|(h & rows & Hdb & Hpaths & _)]].
  - by destruct (Hnone _ Hshown).
  - split; [exact Hfiles|]. split; [exact Hshown|].
    simpl in Hdb. rewrite Hdb in *. simpl in *. by rewrite Hpaths.
Defined.

Lemma X16_process_invoice_rejects_witness :
  ∃ disk',
    process_invoice usual_limit (λ path, Returns path) (λ _, Returns (cp "{}"))
      no_faults sound_engine 7 false false
      {| disk := empty_fs; db := empty_db;
         state := {| page := upload_page; selected_invoice := None |} |}
      two_uploads
    = Returns ([st_spinner (cp "Saving images...");
                st_spinner (cp "Extracting data with Gemini...");
                st_error_text (cp "Extraction failed. Please try again.")],
               {| disk := disk'; db := empty_db;
                  state := {| page := upload_page; selected_invoice := None |} |}).
Proof.
  destruct (save_uploaded_images_total no_faults empty_fs two_uploads eq_refl
              (λ _ _, eq_refl)) as [disk' Hdisk].
  exists disk'.
  assert (extract_invoice_data_with_gemini usual_limit (λ path : str, Returns path)
            (λ _, Returns (cp "{}")) (locator <$> two_uploads)
          = (JObject [], [])) as Hextract by (vm_compute; reflexivity).
  exact (proj1 (X16_process_invoice_rejects usual_limit (λ path, Returns path)
                  (λ _, Returns (cp "{}")) no_faults sound_engine 7 false false
                  {| disk := empty_fs; db := empty_db;
                     state := {| page := upload_page; selected_invoice := None |} |}
                  two_uploads _ disk' (JObject []) [] ltac:(done) Hdisk Hextract)
               eq_refl).
Defined.
